(** * expo-onboarding: the text segmenter and the entrance-animation schedule

    A shallow embedding of [src/OnboardingView.tsx].

    - Part I embeds [parseTextWithLinks], the function that cuts a feature
      description into plain-text and link segments.
    - Part II embeds the timers that [OnboardingView] and [Feature] register
      in their effects, as a discrete-event machine.
    - Part III embeds the style objects that [OnboardingView] and [Feature]
      build, and [RichText], which renders the segments and opens the links.

    A JavaScript string is a finite sequence of UTF-16 code units.  The
    segmenter only ever compares code units for equality, so Part I is
    parametric in the type [A] of code units; the examples instantiate it
    with [Ascii.ascii]. *)

From stdpp Require Import list sorting strings gmap.

(** * Part I: the text segmenter *)

(** ** The data of the segmenter *)

(** [{ sectionText: string; sectionUrl: string }] *)
Record Link (A : Type) := mkLink {
  sectionText : list A;
  sectionUrl : list A
}.
Arguments mkLink {A} _ _.
Arguments sectionText {A} _.
Arguments sectionUrl {A} _.

(** The entries of the local array [linkPositions].  The source calls the
    second field [end], which is a keyword here. *)
Record LinkPosition (A : Type) := mkLinkPosition {
  start : nat;
  end_ : nat;
  text : list A;
  url : list A
}.
Arguments mkLinkPosition {A} _ _ _ _.
Arguments start {A} _.
Arguments end_ {A} _.
Arguments text {A} _.
Arguments url {A} _.

(** ['text' | 'link'] *)
Inductive SegmentType := type_text | type_link.

(** [{ type: 'text' | 'link'; content: string; url?: string }].  The
    optional [url] is [seg_url] here, [url] being the field of
    [LinkPosition]. *)
Record Segment (A : Type) := mkSegment {
  type : SegmentType;
  content : list A;
  seg_url : option (list A)
}.
Arguments mkSegment {A} _ _ _.
Arguments type {A} _.
Arguments content {A} _.
Arguments seg_url {A} _.

Global Instance SegmentType_eq_dec : EqDecision SegmentType.
Proof. solve_decision. Defined.

Module JSString.
Section JSString.
Context {A : Type} `{EqDecision A}.
Implicit Types s searchValue : list A.

(** Abstract operation StringIndexOf(string, searchValue, fromIndex) of
    ECMA-262: the empty search value is found at [fromIndex] whenever
    [fromIndex ≤ len]; otherwise the candidates are the indices [i] with
    [fromIndex ≤ i ≤ len - searchLen], in ascending order.  [None] is the
    result the language calls not-found. *)
Definition candidate s (searchLen i : nat) : list A :=
  take searchLen (drop i s).

Definition StringIndexOf s searchValue (fromIndex : nat) : option nat :=
  let len := length s in
  if bool_decide (searchValue = []) && bool_decide (fromIndex ≤ len)
  then Some fromIndex
  else
    let searchLen := length searchValue in
    if bool_decide (searchLen ≤ len) then
      List.find (λ i, bool_decide (candidate s searchLen i = searchValue))
                (seq fromIndex (S (len - searchLen) - fromIndex))
    else None.

(** [String.prototype.indexOf(searchString, position)]: the position is
    clamped into [0 .. len] before the search; the method returns -1 for
    not-found, which is [None] here. *)
Definition indexOf s searchValue (position : nat) : option nat :=
  let len := length s in
  let start := position `min` len in
  StringIndexOf s searchValue start.

(** [String.prototype.slice(start, end)] for non-negative arguments: both
    bounds are clamped to the length and an inverted range is empty. *)
Definition slice s (from to : nat) : list A :=
  let len := length s in
  let from := from `min` len in
  let to := to `min` len in
  take (to - from) (drop from s).

(** [String.prototype.slice(start)] *)
Definition slice_from s (from : nat) : list A :=
  slice s from (length s).
End JSString.
End JSString.
Import JSString.

Section Segmenter.
Context {A : Type} `{EqDecision A}.
Implicit Types description : list A.
Implicit Types link : Link A.
Implicit Types links : list (Link A).
Implicit Types linkPos : LinkPosition A.
Implicit Types linkPositions : list (LinkPosition A).
Implicit Types segments : list (Segment A).

(** The [while (true)] loop of lines 51-63.  The loop has no bound of its
    own, so the embedding takes a number of iterations it may run; [None]
    means the loop was still running when they were used up.  The array
    [linkPositions] is shared by all the loops and grows by [push]. *)
Fixpoint scanLink (fuel : nat) description link (startIndex : nat)
    linkPositions : option (list (LinkPosition A)) :=
  match fuel with
  | 0 => None
  | S fuel =>
      match indexOf description (sectionText link) startIndex with
      | None => Some linkPositions
      | Some index =>
          scanLink fuel description link (index + 1)
            (linkPositions ++
               [mkLinkPosition index (index + length (sectionText link))
                               (sectionText link) (sectionUrl link)])
      end
  end.

(** [for (const link of links)], lines 49-64. *)
Fixpoint scanLinks (fuel : nat) description links linkPositions
    : option (list (LinkPosition A)) :=
  match links with
  | [] => Some linkPositions
  | link :: links =>
      match scanLink fuel description link 0 linkPositions with
      | None => None
      | Some linkPositions => scanLinks fuel description links linkPositions
      end
  end.

(** [linkPositions.sort((a, b) => a.start - b.start)], line 67.
    [Array.prototype.sort] is stable and the comparator is a consistent
    order on [start], so the sorted array is determined: entries in
    ascending [start], entries of equal [start] in their order before the
    call.  Insertion from the right computes it. *)
Fixpoint insertByStart linkPos linkPositions : list (LinkPosition A) :=
  match linkPositions with
  | [] => [linkPos]
  | other :: rest =>
      if bool_decide (start linkPos ≤ start other)
      then linkPos :: other :: rest
      else other :: insertByStart linkPos rest
  end.

Fixpoint sortByStart linkPositions : list (LinkPosition A) :=
  match linkPositions with
  | [] => []
  | linkPos :: rest => insertByStart linkPos (sortByStart rest)
  end.

(** One round of [for (const linkPos of linkPositions)], lines 73-90, on
    the pair of [segments] and [currentIndex]. *)
Definition pushLink description (acc : list (Segment A) * nat) linkPos
    : list (Segment A) * nat :=
  let '(segments, currentIndex) := acc in
  let segments :=
    if bool_decide (currentIndex < start linkPos)
    then segments ++
           [mkSegment type_text
              (slice description currentIndex (start linkPos)) None]
    else segments in
  (segments ++ [mkSegment type_link (text linkPos) (Some (url linkPos))],
   end_ linkPos).

(** Lines 70-100: the walk over the sorted positions and the remainder. *)
Definition buildSegments description linkPositions : list (Segment A) :=
  let '(segments, currentIndex) :=
    foldl (pushLink description) ([], 0) linkPositions in
  if bool_decide (currentIndex < length description)
  then segments ++
         [mkSegment type_text (slice_from description currentIndex) None]
  else segments.

(** [parseTextWithLinks(description, links)], lines 32-101.  A missing
    [links] argument takes the default [[]]. *)
Definition parseTextWithLinks (fuel : nat) description links
    : option (list (Segment A)) :=
  if bool_decide (length links = 0)
  then Some [mkSegment type_text description None]
  else
    match scanLinks fuel description links [] with
    | None => None
    | Some linkPositions =>
        Some (buildSegments description (sortByStart linkPositions))
    end.

(** The call returns [segments]: some number of loop iterations is
    enough for the result. *)
Definition returns description links segments : Prop :=
  ∃ fuel, parseTextWithLinks fuel description links = Some segments.

(** The call never returns: no number of loop iterations is enough. *)
Definition diverges description links : Prop :=
  ∀ fuel, parseTextWithLinks fuel description links = None.
End Segmenter.

(** Descriptions written as string literals, one code unit per character. *)
Definition js (s : string) : list Ascii.ascii := String.list_ascii_of_string s.

Definition text_segment {A} (c : list A) : Segment A :=
  mkSegment type_text c None.
Definition link_segment {A} (c u : list A) : Segment A :=
  mkSegment type_link c (Some u).

(** ** Vocabulary of the statements *)

Section Vocabulary.
Context {A : Type} `{EqDecision A}.
Implicit Types description : list A.

(** [searchValue] occurs in [description] at index [i]. *)
Definition occursAt description (searchValue : list A) (i : nat) : Prop :=
  candidate description (length searchValue) i = searchValue.

Global Instance occursAt_dec description searchValue i :
  Decision (occursAt description searchValue i).
Proof. unfold occursAt. apply _. Defined.

(** All the indices at which [searchValue] occurs, ascending. *)
Definition occurrences description (searchValue : list A) : list nat :=
  filter (occursAt description searchValue) (seq 0 (S (length description))).

(** The entry pushed for an occurrence of [link] at [index]. *)
Definition positionAt (link : Link A) (index : nat) : LinkPosition A :=
  mkLinkPosition index (index + length (sectionText link))
                 (sectionText link) (sectionUrl link).

(** The entries one link contributes, and those of a list of links in
    declaration order. *)
Definition located description (link : Link A) : list (LinkPosition A) :=
  positionAt link <$> occurrences description (sectionText link).

Definition allLocated description (links : list (Link A))
    : list (LinkPosition A) :=
  links ≫= located description.

(** The entries a scan adds when it resumes at [startIndex]. *)
Definition locatedFrom description link (startIndex : nat)
    : list (LinkPosition A) :=
  positionAt link <$>
    filter (occursAt description (sectionText link))
           (seq startIndex (S (length description) - startIndex)).

(** The order the comparator of the sort induces. *)
Definition startLe (a b : LinkPosition A) : Prop := start a ≤ start b.

(** Two entries cover disjoint ranges of the description. *)
Definition disjointSpans (a b : LinkPosition A) : Prop :=
  end_ a ≤ start b ∨ end_ b ≤ start a.

(** Every entry is disjoint from every later entry of the list, and so,
    the relation being symmetric, from every other entry. *)
Definition pairwiseDisjoint (l : list (LinkPosition A)) : Prop :=
  StronglySorted disjointSpans l.

(** The concatenation of the [content] fields. *)
Definition contents (segments : list (Segment A)) : list A :=
  segments ≫= content.

(** The link segment emitted for a link. *)
Definition segmentOfLink (link : Link A) : Segment A :=
  link_segment (sectionText link) (sectionUrl link).

Definition nonEmptyText (link : Link A) : Prop := sectionText link ≠ [].

(** An entry ends no later than the next one starts. *)
Definition endsBefore (a b : LinkPosition A) : Prop := end_ a ≤ start b.

(** An entry lies inside the description, is not empty, and its [text] is
    what the description holds there. *)
Definition wellPlaced description (x : LinkPosition A) : Prop :=
  start x < end_ x ∧ end_ x ≤ length description ∧
  text x = slice description (start x) (end_ x).

(** The segments the walk of lines 73-90 appends for the entries [l] when
    it reaches them with [currentIndex = cur], the value of [currentIndex]
    after them, and the segment lines 93-98 append. *)
Fixpoint emitted description (cur : nat) (l : list (LinkPosition A))
    : list (Segment A) :=
  match l with
  | [] => []
  | x :: l =>
      (if bool_decide (cur < start x)
       then [text_segment (slice description cur (start x))] else [])
      ++ link_segment (text x) (url x) :: emitted description (end_ x) l
  end.

Fixpoint cursorAfter (cur : nat) (l : list (LinkPosition A)) : nat :=
  match l with
  | [] => cur
  | x :: l => cursorAfter (end_ x) l
  end.

Definition remainder description (cur : nat) : list (Segment A) :=
  if bool_decide (cur < length description)
  then [text_segment (slice_from description cur)] else [].

(** The offsets, in the concatenated contents, at which the link segments
    begin, when the first segment begins at [offset]. *)
Fixpoint linkOffsets (offset : nat) (segments : list (Segment A))
    : list nat :=
  match segments with
  | [] => []
  | s :: rest =>
      (if decide (type s = type_link) then [offset] else [])
      ++ linkOffsets (offset + length (content s)) rest
  end.

(** The link segment emitted for an entry, and the link segments of an
    output, in order. *)
Definition segmentOfPosition (x : LinkPosition A) : Segment A :=
  link_segment (text x) (url x).

Definition linkSegments (segments : list (Segment A)) : list (Segment A) :=
  filter (λ s, type s = type_link) segments.

Global Instance disjointSpans_dec a b : Decision (disjointSpans a b).
Proof. unfold disjointSpans. apply _. Defined.

(** Every entry of the first list is disjoint from every entry of the
    second. *)
Definition crossDisjoint (l1 l2 : list (LinkPosition A)) : Prop :=
  Forall (λ x, Forall (disjointSpans x) l2) l1.

Global Instance crossDisjoint_dec l1 l2 : Decision (crossDisjoint l1 l2).
Proof. unfold crossDisjoint. apply _. Defined.

Global Instance pairwiseDisjoint_dec l : Decision (pairwiseDisjoint l).
Proof. unfold pairwiseDisjoint. apply _. Defined.

(** No text segment is empty. *)
Definition noEmptyText (segments : list (Segment A)) : Prop :=
  Forall (λ s, type s = type_text → content s ≠ []) segments.
End Vocabulary.

(** * Part II: the entrance animation

    [OnboardingView] and [Feature] start their animations from effects and
    from callbacks handed to [setTimeout].  The embedding is a machine whose
    state holds a clock, the pending timers, and the log of the animations
    started so far.  Times are in milliseconds.

    What the runtime does is fixed as follows.
    - [setTimeout(f, d)] registers [f] to run once, [d] after the call.
      Pending callbacks run in the order of their due times, and in the
      order of registration when these are equal; a callback runs exactly
      at its due time.  Only [clearTimeout] removes a pending callback.
    - An effect runs after its component mounts and again when one of its
      dependencies changes.  When the component unmounts, the function the
      effect returned is called; an effect that returns nothing leaves
      nothing to call.
    - A state setter called after the component unmounted does nothing. *)

(** The table [ANIMATION_CONFIG].  [INITIAL_SCALE], [BACK_EASING_FACTOR] and
    [SCREEN_HEIGHT_FACTOR] are fractions that shape the interpolation; they
    take no part in the schedule and are left out. *)
Record AnimationConfig := mkAnimationConfig {
  FADE_IN_DURATION : N;
  MOVE_UP_DURATION : N;
  FEATURE_DURATION : N;
  STAGGER_DELAY : N;
  BUFFER_DELAY : N;
  FEATURE_TRANSLATE_OFFSET : N
}.

Definition ANIMATION_CONFIG : AnimationConfig :=
  {| FADE_IN_DURATION := 600;
     MOVE_UP_DURATION := 800;
     FEATURE_DURATION := 750;
     STAGGER_DELAY := 420;
     BUFFER_DELAY := 200;
     FEATURE_TRANSLATE_OFFSET := 42 |}.

(** The [Animated.Value]s: four of [OnboardingView], two of each
    [Feature], named by the index of the feature. *)
Inductive AnimatedValue :=
| iconTitleOpacity
| iconTitleScale
| iconTitleTranslateY
| blurViewOpacity
| opacity (index : nat)
| translateY (index : nat).

Global Instance AnimatedValue_eq_dec : EqDecision AnimatedValue.
Proof. solve_decision. Defined.

(** One call [Animated.timing(value, { duration, ... }).start()], with the
    time of the call. *)
Record Started := mkStarted {
  at_ : N;
  value : AnimatedValue;
  duration : N
}.

Global Instance Started_eq_dec : EqDecision Started.
Proof. solve_decision. Defined.

(** The four closures the source hands to [setTimeout]. *)
Inductive Callback :=
| moveUp                          (* lines 247-254 *)
| triggerFeatures                 (* lines 262-264 *)
| showBlurView                    (* lines 267-279 *)
| animateFeature (index : nat).   (* lines 443-458 *)

Global Instance Callback_eq_dec : EqDecision Callback.
Proof. solve_decision. Defined.

Record Timer := mkTimer {
  due : N;
  callback : Callback
}.

Record World := mkWorld {
  clock : N;
  timers : list Timer;
  mounted : bool;
  shouldAnimateFeatures : bool;
  started : list Started
}.

(** A new timer goes behind the pending ones that are due no later. *)
Fixpoint enqueue (t : Timer) (pending : list Timer) : list Timer :=
  match pending with
  | [] => [t]
  | other :: rest =>
      if bool_decide (due other ≤ due t)%N
      then other :: enqueue t rest
      else t :: other :: rest
  end.

Definition setTimeout (f : Callback) (delay : N) (w : World) : World :=
  mkWorld (clock w) (enqueue (mkTimer (clock w + delay) f) (timers w))
          (mounted w) (shouldAnimateFeatures w) (started w).

Definition timing_start (v : AnimatedValue) (d : N) (w : World) : World :=
  mkWorld (clock w) (timers w) (mounted w) (shouldAnimateFeatures w)
          (started w ++ [mkStarted (clock w) v d]).

Definition dueLe (a b : Timer) : Prop := (due a ≤ due b)%N.

Section Machine.
Variable cfg : AnimationConfig.
(** [features.length]; the [features] prop stays the same while the screen
    is shown. *)
Variable featuresLength : nat.

(** The effect of [OnboardingView], lines 230-280.  It returns nothing. *)
Definition OnboardingView_effect (w : World) : World :=
  let w := timing_start iconTitleOpacity (FADE_IN_DURATION cfg) w in
  let w := timing_start iconTitleScale (FADE_IN_DURATION cfg) w in
  let w := setTimeout moveUp (FADE_IN_DURATION cfg) w in
  let featureAnimationTriggerDelay :=
    (FADE_IN_DURATION cfg + MOVE_UP_DURATION cfg + BUFFER_DELAY cfg)%N in
  let w := setTimeout triggerFeatures featureAnimationTriggerDelay w in
  setTimeout showBlurView
    (featureAnimationTriggerDelay
     + N.of_nat featuresLength * STAGGER_DELAY cfg + BUFFER_DELAY cfg)%N w.

(** [animationDelay={index * ANIMATION_CONFIG.STAGGER_DELAY}], line 365. *)
Definition animationDelay (index : nat) : N :=
  (N.of_nat index * STAGGER_DELAY cfg)%N.

(** The effect of the [Feature] at [index], lines 441-460.  It returns
    nothing. *)
Definition Feature_effect (index : nat) (shouldAnimate : bool) (w : World)
    : World :=
  if shouldAnimate
  then setTimeout (animateFeature index) (animationDelay index) w
  else w.

(** The effects of all the [Feature]s, in the order of [features.map]. *)
Definition Feature_effects (shouldAnimate : bool) (w : World) : World :=
  foldl (λ w index, Feature_effect index shouldAnimate w) w
        (seq 0 featuresLength).

(** [setShouldAnimateFeatures(true)]: on a mounted screen the state changes,
    every [Feature] gets the new [shouldAnimate] and its effect runs again. *)
Definition setShouldAnimateFeatures (b : bool) (w : World) : World :=
  if mounted w then
    if bool_decide (shouldAnimateFeatures w = b) then w
    else Feature_effects b
           (mkWorld (clock w) (timers w) (mounted w) b (started w))
  else w.

(** The bodies of the four closures. *)
Definition fire (f : Callback) (w : World) : World :=
  match f with
  | moveUp => timing_start iconTitleTranslateY (MOVE_UP_DURATION cfg) w
  | triggerFeatures => setShouldAnimateFeatures true w
  | showBlurView => timing_start blurViewOpacity (FEATURE_DURATION cfg) w
  | animateFeature index =>
      (* Animated.parallel([opacity, translateY]).start() *)
      timing_start (translateY index) (FEATURE_DURATION cfg)
        (timing_start (opacity index) (FEATURE_DURATION cfg) w)
  end.

(** The screen mounts at time 0: the effects of the children run, with
    [shouldAnimate = false], then the effect of [OnboardingView]. *)
Definition mount : World :=
  OnboardingView_effect (Feature_effects false (mkWorld 0 [] true false [])).

(** The screen unmounts.  No effect returned a cleanup function and no
    handle of [setTimeout] was kept: the pending timers stay. *)
Definition unmount (w : World) : World :=
  mkWorld (clock w) (timers w) false (shouldAnimateFeatures w) (started w).

(** Time passes until [until]: the pending callbacks due by then run, one
    per round.  [None] means that callbacks were still due after [fuel]
    rounds. *)
Fixpoint run (fuel : nat) (until : N) (w : World) : option World :=
  match fuel with
  | 0 => None
  | S fuel =>
      match timers w with
      | t :: rest =>
          if bool_decide (due t ≤ until)%N
          then run fuel until
                 (fire (callback t)
                    (mkWorld (due t) rest (mounted w)
                             (shouldAnimateFeatures w) (started w)))
          else Some (mkWorld until (timers w) (mounted w)
                             (shouldAnimateFeatures w) (started w))
      | [] => Some (mkWorld until [] (mounted w)
                            (shouldAnimateFeatures w) (started w))
      end
  end.

(** Only [triggerFeatures] registers timers when it runs. *)
Definition registersNothing (t : Timer) : Prop :=
  callback t ≠ triggerFeatures.

(** The timer a [Feature] registers when the flag flips at time [t]. *)
Definition featureTimer (t : N) (index : nat) : Timer :=
  mkTimer (t + animationDelay index) (animateFeature index).

(** The time at which the flag flips, the time at which the feature at
    [index] starts, and the time at which the trailing panel starts. *)
Definition triggerTime : N :=
  (FADE_IN_DURATION cfg + MOVE_UP_DURATION cfg + BUFFER_DELAY cfg)%N.

Definition featureTime (index : nat) : N :=
  (triggerTime + N.of_nat index * STAGGER_DELAY cfg)%N.

Definition blurTime : N :=
  (triggerTime + N.of_nat featuresLength * STAGGER_DELAY cfg
   + BUFFER_DELAY cfg)%N.

(** The animations a callback starts when it runs at time [t]. *)
Definition startedBy (t : N) (f : Callback) : list Started :=
  match f with
  | moveUp => [mkStarted t iconTitleTranslateY (MOVE_UP_DURATION cfg)]
  | triggerFeatures => []
  | showBlurView => [mkStarted t blurViewOpacity (FEATURE_DURATION cfg)]
  | animateFeature index =>
      [mkStarted t (opacity index) (FEATURE_DURATION cfg);
       mkStarted t (translateY index) (FEATURE_DURATION cfg)]
  end.
End Machine.

(** * Further vocabulary *)

Section MoreVocabulary.
Context {A : Type} `{EqDecision A}.

(** Every text segment that has a successor is followed by a link
    segment. *)
Fixpoint textThenLink (segments : list (Segment A)) : Prop :=
  match segments with
  | a :: rest =>
      match rest with
      | b :: _ => (type a = type_text → type b = type_link)
      | [] => True
      end ∧ textThenLink rest
  | [] => True
  end.

End MoreVocabulary.

(** * Part III: styles and the rendering of a description

    A style is an object used as a map from property names to values.  The
    source only copies style values around, so the type [V] of the values
    is a parameter; [str] and [num] give the values of the string and
    number literals of the source, and [tintColor] is passed as the value
    it becomes in a style. *)

Section Styles.
Context {V : Type} (str : string → V) (num : N → V).

(** [{ color: 'white', textAlign: 'center', fontSize: 36, fontWeight: 800,
       ...titleStyle }], lines 292-301: the properties of [titleStyle] are
    copied last and win. *)
Definition OnboardingView_memoizedTitleStyle (titleStyle : gmap string V)
    : gmap string V :=
  titleStyle ∪
  <["fontWeight" := num 800]> (<["fontSize" := num 36]>
    (<["textAlign" := str "center"]> (<["color" := str "white"]> ∅))).

(** [{ color: 'white', fontSize: 18, fontWeight: 600, ...titleStyle }],
    lines 464-472. *)
Definition Feature_memoizedTitleStyle (titleStyle : gmap string V)
    : gmap string V :=
  titleStyle ∪
  <["fontWeight" := num 600]> (<["fontSize" := num 18]>
    (<["color" := str "white"]> ∅)).

(** [{ color: 'gray', fontSize: 18, fontWeight: 400, lineHeight: 24,
       ...descriptionStyle }], lines 474-483. *)
Definition Feature_memoizedDescriptionStyle
    (descriptionStyle : gmap string V) : gmap string V :=
  descriptionStyle ∪
  <["lineHeight" := num 24]> (<["fontWeight" := num 400]>
    (<["fontSize" := num 18]> (<["color" := str "gray"]> ∅))).

(** [{ ...style, color: tintColor, fontWeight: 700 }], lines 132-136: here
    the two literal properties come last and win. *)
Definition linkStyle (style : gmap string V) (tintColor : V)
    : gmap string V :=
  <["fontWeight" := num 700]> (<["color" := tintColor]> style).
End Styles.

(** A [<Text>] child of the description: its [key], its [style] prop if it
    has one, the argument its [onPress] handler passes to
    [handleLinkPress] if it has a handler, and its text. *)
Record TextElement (A V : Type) := mkTextElement {
  key : nat;
  elementStyle : option (gmap string V);
  onPress : option (option (list A));
  elementText : list A
}.
Arguments mkTextElement {A V} _ _ _ _.
Arguments key {A V} _.
Arguments elementStyle {A V} _.
Arguments onPress {A V} _.
Arguments elementText {A V} _.

(** What a press can cause: a call of [Linking.openURL] and a call of
    [alert]. *)
Inductive LinkEffect (A : Type) :=
| OpenURL (url : option (list A))
| Alert (message : string).
Arguments OpenURL {A} _.
Arguments Alert {A} _.

Section RichText.
Context {A : Type} `{EqDecision A} {V : Type} (str : string → V) (num : N → V).

(** The callback of [segments.map], lines 127-144.  The handler of a link
    child passes [segment.url!], the [url] field as it is. *)
Definition renderSegment (style : gmap string V) (tintColor : V)
    (index : nat) (segment : Segment A) : TextElement A V :=
  match type segment with
  | type_link =>
      mkTextElement index (Some (linkStyle num style tintColor))
                    (Some (seg_url segment)) (content segment)
  | type_text => mkTextElement index None None (content segment)
  end.

(** [RichText], lines 104-147: the style of the outer [<Text>] and its
    children. *)
Definition RichText (fuel : nat) (description : list A)
    (links : list (Link A)) (tintColor : V) (style : gmap string V)
    : option (gmap string V * list (TextElement A V)) :=
  match parseTextWithLinks fuel description links with
  | None => None
  | Some segments =>
      Some (style, imap (renderSegment style tintColor) segments)
  end.

(** [handleLinkPress], lines 117-123: [openURL] tells whether
    [Linking.openURL] succeeds; a failure is caught and reported. *)
Definition handleLinkPress (openURL : option (list A) → bool)
    (url : option (list A)) : list (LinkEffect A) :=
  OpenURL url ::
  (if openURL url then [] else [Alert "Could not open link"]).

(** A press on a child runs its handler, if it has one. *)
Definition press (openURL : option (list A) → bool)
    (element : TextElement A V) : list (LinkEffect A) :=
  match onPress element with
  | Some url => handleLinkPress openURL url
  | None => []
  end.

(** The [<RichText>] of a [Feature], lines 525-530. *)
Definition Feature_RichText (fuel : nat) (description : list A)
    (links : list (Link A)) (tintColor : V)
    (descriptionStyle : gmap string V)
    : option (gmap string V * list (TextElement A V)) :=
  RichText fuel description links tintColor
           (Feature_memoizedDescriptionStyle str num descriptionStyle).
End RichText.

(** * Further vocabulary of the schedule *)

(** The timers pending right after the flag has flipped: the one of the
    trailing panel, registered at the mount, and those the [Feature]s have
    just registered. *)
Definition featureQueue (cfg : AnimationConfig) (n : nat) : list Timer :=
  foldl (λ q i, enqueue (featureTimer cfg (triggerTime cfg) i) q)
        [mkTimer (blurTime cfg n) showBlurView] (seq 0 n).

(** The animations started by the callbacks of [q] that are due by
    [until]. *)
Definition firedBy (cfg : AnimationConfig) (until : N) (q : list Timer)
    : list Started :=
  filter (λ t, due t ≤ until)%N q
  ≫= λ t, startedBy cfg (due t) (callback t).

(** A number for each animated value, different values having different
    numbers. *)
Definition valueCode (v : AnimatedValue) : nat :=
  match v with
  | iconTitleOpacity => 0
  | iconTitleScale => 1
  | iconTitleTranslateY => 2
  | blurViewOpacity => 3
  | opacity index => 4 + 2 * index
  | translateY index => 5 + 2 * index
  end.

(** The log is in the order of time. *)
Definition chronological (log : list Started) : Prop :=
  StronglySorted (λ a b, at_ a ≤ at_ b)%N log.

(** * Part I, proofs *)

(** ** Facts about the string primitives *)

Section FindSeq.
Variable P : nat → bool.

Lemma find_seq_Some k n i :
  List.find P (seq k n) = Some i ↔
  k ≤ i < k + n ∧ P i = true ∧ ∀ j, k ≤ j < i → P j = false.
Proof.
  revert k. induction n as [|n IH]; intros k; simpl.
  - split; [discriminate | lia].
  - destruct (P k) eqn:Hk.
    + split.
      * intros [= <-]. repeat split; [lia.. | done | lia].
      * intros (Hr & Hi & Hmin). f_equal.
        destruct (decide (k = i)) as [|Hne]; [done|].
        rewrite Hmin in Hk by lia. discriminate.
    + rewrite IH. split.
      * intros (Hr & Hi & Hmin). repeat split; [lia.. | done |].
        intros j Hj. destruct (decide (j = k)) as [->|]; [done|].
        apply Hmin. lia.
      * intros (Hr & Hi & Hmin).
        assert (k ≠ i) by (intros ->; congruence).
        repeat split; [lia.. | done |]. intros j Hj. apply Hmin. lia.
Qed.

Lemma find_seq_None k n :
  List.find P (seq k n) = None ↔ ∀ j, k ≤ j < k + n → P j = false.
Proof.
  revert k. induction n as [|n IH]; intros k; simpl.
  - split; [lia | done].
  - destruct (P k) eqn:Hk.
    + split; [discriminate|]. intros Hall. rewrite Hall in Hk by lia.
      discriminate.
    + rewrite IH. split.
      * intros Hall j Hj. destruct (decide (j = k)) as [->|]; [done|].
        apply Hall. lia.
      * intros Hall j Hj. apply Hall. lia.
Qed.
End FindSeq.

Section StringFacts.
Context {A : Type} `{EqDecision A}.
Implicit Types s searchValue : list A.

Lemma occursAt_bound s searchValue i :
  occursAt s searchValue i → searchValue ≠ [] →
  i + length searchValue ≤ length s ∧ i < length s.
Proof.
  unfold occursAt, candidate. intros Hocc Hne.
  assert (length searchValue ≠ 0) by (destruct searchValue; simpl; done).
  apply (f_equal length) in Hocc.
  rewrite length_take, length_drop in Hocc. lia.
Qed.

Lemma indexOf_empty s k : indexOf s [] k = Some (k `min` length s).
Proof.
  unfold indexOf, StringIndexOf.
  rewrite bool_decide_eq_true_2 by done.
  rewrite bool_decide_eq_true_2 by lia. done.
Qed.

Lemma indexOf_Some s searchValue k i :
  searchValue ≠ [] →
  indexOf s searchValue k = Some i ↔
  k ≤ i ∧ occursAt s searchValue i ∧
  ∀ j, k ≤ j < i → ¬ occursAt s searchValue j.
Proof.
  intros Hne. unfold indexOf, StringIndexOf.
  assert (length searchValue ≠ 0) by (destruct searchValue; simpl; done).
  rewrite bool_decide_eq_false_2 by done. simpl.
  case_bool_decide as Hlen.
  - rewrite find_seq_Some. split.
    + intros (Hr & Hi & Hmin). apply bool_decide_eq_true in Hi.
      split; [lia|]. split; [done|]. intros j Hj Hocc.
      destruct (occursAt_bound _ _ _ Hocc Hne).
      specialize (Hmin j). rewrite bool_decide_eq_false in Hmin.
      apply Hmin; [lia | done].
    + intros (Hr & Hi & Hmin).
      destruct (occursAt_bound _ _ _ Hi Hne).
      repeat split; [lia.. | by apply bool_decide_eq_true |].
      intros j Hj. apply bool_decide_eq_false. apply Hmin. lia.
  - split; [discriminate|]. intros (_ & Hi & _).
    destruct (occursAt_bound _ _ _ Hi Hne). lia.
Qed.

Lemma indexOf_None s searchValue k :
  searchValue ≠ [] →
  indexOf s searchValue k = None ↔
  ∀ j, k ≤ j → ¬ occursAt s searchValue j.
Proof.
  intros Hne. unfold indexOf, StringIndexOf.
  assert (length searchValue ≠ 0) by (destruct searchValue; simpl; done).
  rewrite bool_decide_eq_false_2 by done. simpl.
  case_bool_decide as Hlen.
  - rewrite find_seq_None. split.
    + intros Hall j Hj Hocc. destruct (occursAt_bound _ _ _ Hocc Hne).
      specialize (Hall j). rewrite bool_decide_eq_false in Hall.
      apply Hall; [lia | done].
    + intros Hall j Hj. apply bool_decide_eq_false, Hall. lia.
  - split; [|done]. intros _ j _ Hocc.
    destruct (occursAt_bound _ _ _ Hocc Hne). lia.
Qed.

Lemma slice_take_drop s i n :
  i + n ≤ length s → slice s i (i + n) = take n (drop i s).
Proof.
  intros Hle. unfold slice.
  replace (i `min` length s) with i by lia.
  replace ((i + n) `min` length s) with (i + n) by lia.
  f_equal. lia.
Qed.

Lemma slice_length s i j :
  i < j → j ≤ length s → length (slice s i j) = j - i.
Proof.
  intros Hij Hj. unfold slice. rewrite length_take, length_drop. lia.
Qed.

Lemma slice_app s i j k :
  i ≤ j → j ≤ k → k ≤ length s →
  slice s i j ++ slice s j k = slice s i k.
Proof.
  intros Hij Hjk Hk. unfold slice.
  replace (i `min` length s) with i by lia.
  replace (j `min` length s) with j by lia.
  replace (k `min` length s) with k by lia.
  replace (k - i) with ((j - i) + (k - j)) by lia.
  rewrite <- take_take_drop, drop_drop.
  replace (i + (j - i)) with j by lia. done.
Qed.
End StringFacts.

(** ** The scanning loops *)

Lemma filter_none {B} (P : B → Prop) `{∀ x, Decision (P x)} (l : list B) :
  Forall (λ x, ¬ P x) l → filter P l = [].
Proof.
  induction 1 as [|x l Hx _ IH]; [done|]. by rewrite filter_cons_False.
Qed.

Section FilterSeq.
Context (P : nat → Prop) `{∀ i, Decision (P i)}.

Lemma filter_seq_none k n :
  (∀ j, k ≤ j < k + n → ¬ P j) → filter P (seq k n) = [].
Proof.
  revert k. induction n as [|n IH]; intros k Hall; [done|]. simpl.
  rewrite filter_cons_False by (apply Hall; lia).
  apply IH. intros j Hj. apply Hall. lia.
Qed.

Lemma filter_seq_first k n i :
  k ≤ i < k + n → P i → (∀ j, k ≤ j < i → ¬ P j) →
  filter P (seq k n) = i :: filter P (seq (i + 1) (k + n - (i + 1))).
Proof.
  intros Hr Hi Hmin.
  replace n with ((i - k) + S (k + n - (i + 1))) by lia.
  rewrite seq_app, filter_app.
  rewrite filter_seq_none by (intros j Hj; apply Hmin; lia).
  replace (k + (i - k)) with i by lia. simpl.
  rewrite filter_cons_True by done.
  f_equal. f_equal. f_equal; lia.
Qed.
End FilterSeq.

Section Scanning.
Context {A : Type} `{EqDecision A}.
Implicit Types description : list A.
Implicit Types link : Link A.
Implicit Types links : list (Link A).
Implicit Types linkPositions : list (LinkPosition A).

Lemma locatedFrom_0 description link :
  locatedFrom description link 0 = located description link.
Proof.
  unfold locatedFrom, located, occurrences. by rewrite Nat.sub_0_r.
Qed.

Lemma allLocated_cons description link links :
  allLocated description (link :: links) =
    located description link ++ allLocated description links.
Proof. done. Qed.

Lemma locatedFrom_None description link k :
  nonEmptyText link →
  indexOf description (sectionText link) k = None →
  locatedFrom description link k = [].
Proof.
  intros Hne Hidx. unfold locatedFrom.
  rewrite filter_seq_none; [done|].
  intros j Hj. eapply indexOf_None; [done.. | lia].
Qed.

Lemma locatedFrom_Some description link k index :
  nonEmptyText link →
  indexOf description (sectionText link) k = Some index →
  locatedFrom description link k =
    positionAt link index :: locatedFrom description link (index + 1)
  ∧ k ≤ index < length description.
Proof.
  intros Hne Hidx. apply indexOf_Some in Hidx as (Hk & Hocc & Hmin); [|done].
  destruct (occursAt_bound _ _ _ Hocc Hne) as [_ Hlt].
  split; [|lia]. unfold locatedFrom.
  rewrite (filter_seq_first _ _ _ index) by (done || lia).
  rewrite fmap_cons. do 4 f_equal. lia.
Qed.

(** An empty [sectionText] is found by every [indexOf] call, so the loop
    never reaches its [break]. *)
Lemma scanLink_empty fuel description link startIndex linkPositions :
  sectionText link = [] →
  scanLink fuel description link startIndex linkPositions = None.
Proof.
  intros Hempty. revert startIndex linkPositions.
  induction fuel as [|fuel IH]; intros startIndex linkPositions; [done|].
  simpl. rewrite Hempty, indexOf_empty. rewrite <- Hempty. apply IH.
Qed.

Lemma scanLink_Some fuel description link startIndex linkPositions result :
  scanLink fuel description link startIndex linkPositions = Some result →
  nonEmptyText link ∧
  result = linkPositions ++ locatedFrom description link startIndex.
Proof.
  intros Hscan.
  assert (nonEmptyText link) as Hne.
  { intros Hempty. by rewrite scanLink_empty in Hscan. }
  split; [done|]. revert startIndex linkPositions Hscan.
  induction fuel as [|fuel IH]; intros startIndex linkPositions; [done|].
  simpl. destruct (indexOf _ _ _) as [index|] eqn:Hidx.
  - intros ->%IH.
    apply locatedFrom_Some in Hidx as [-> _]; [|done].
    by rewrite <- app_assoc.
  - intros [= <-]. rewrite locatedFrom_None by done. by rewrite app_nil_r.
Qed.

(** With a non-empty [sectionText] every round moves [startIndex] forward
    and a match lies before the end of the description. *)
Lemma scanLink_enough fuel description link startIndex linkPositions :
  nonEmptyText link →
  length description - startIndex < fuel →
  scanLink fuel description link startIndex linkPositions =
    Some (linkPositions ++ locatedFrom description link startIndex).
Proof.
  intros Hne. revert startIndex linkPositions.
  induction fuel as [|fuel IH]; intros startIndex linkPositions Hfuel;
    [lia|].
  simpl. destruct (indexOf _ _ _) as [index|] eqn:Hidx.
  - apply locatedFrom_Some in Hidx as [-> Hindex]; [|done].
    rewrite IH by lia. by rewrite <- app_assoc.
  - rewrite locatedFrom_None by done. by rewrite app_nil_r.
Qed.

Lemma scanLinks_Some fuel description links linkPositions result :
  scanLinks fuel description links linkPositions = Some result →
  Forall nonEmptyText links ∧
  result = linkPositions ++ allLocated description links.
Proof.
  revert linkPositions.
  induction links as [|link links IH]; intros linkPositions; simpl.
  - intros [= <-]. by rewrite app_nil_r.
  - destruct (scanLink _ _ _ _ _) as [mid|] eqn:Hscan; [|done].
    apply scanLink_Some in Hscan as [Hne ->].
    intros [Hall ->]%IH. split; [by constructor|].
    by rewrite ?allLocated_cons, locatedFrom_0, <- app_assoc.
Qed.

Lemma scanLinks_enough fuel description links linkPositions :
  Forall nonEmptyText links →
  length description < fuel →
  scanLinks fuel description links linkPositions =
    Some (linkPositions ++ allLocated description links).
Proof.
  intros Hall Hfuel. revert linkPositions.
  induction Hall as [|link links Hne _ IH]; intros linkPositions; simpl.
  - by rewrite app_nil_r.
  - rewrite scanLink_enough by (done || lia).
    rewrite IH. by rewrite ?allLocated_cons, locatedFrom_0, <- app_assoc.
Qed.

Lemma scanLinks_empty fuel description links linkPositions :
  ¬ Forall nonEmptyText links →
  scanLinks fuel description links linkPositions = None.
Proof.
  intros Hex. destruct (scanLinks _ _ _ _) eqn:Hscan; [|done].
  by apply scanLinks_Some in Hscan as [? _].
Qed.

(** What a call returns, and when. *)
Lemma returns_iff description links segments :
  returns description links segments ↔
  (links = [] ∧ segments = [text_segment description]) ∨
  (links ≠ [] ∧ Forall nonEmptyText links ∧
   segments =
     buildSegments description
       (sortByStart (allLocated description links))).
Proof.
  unfold returns, parseTextWithLinks. split.
  - intros [fuel Hret]. case_bool_decide as Hlen.
    + left. split; [by apply nil_length_inv|]. by injection Hret.
    + right. split; [by intros ->|].
      destruct (scanLinks _ _ _ _) as [found|] eqn:Hscan; [|done].
      apply scanLinks_Some in Hscan as [Hall ->].
      split; [done|]. by injection Hret.
  - intros [[-> ->]|(Hlinks & Hall & ->)].
    + by exists 0.
    + exists (S (length description)).
      rewrite bool_decide_eq_false_2 by (by destruct links).
      rewrite scanLinks_enough by (done || lia). done.
Qed.

Lemma returns_functional description links segments1 segments2 :
  returns description links segments1 →
  returns description links segments2 → segments1 = segments2.
Proof.
  rewrite !returns_iff.
  intros [[? ->]|(? & _ & ->)] [[? ->]|(? & _ & ->)]; done.
Qed.

(** The result does not depend on the number of rounds allowed, as long
    as they are enough. *)
Lemma parseTextWithLinks_returns fuel description links segments :
  parseTextWithLinks fuel description links = Some segments →
  returns description links segments.
Proof. intros Hret. by exists fuel. Qed.

Lemma returns_enough description links segments :
  returns description links segments →
  parseTextWithLinks (S (length description)) description links
  = Some segments.
Proof.
  rewrite returns_iff. unfold parseTextWithLinks.
  intros [[-> ->]|(Hlinks & Hall & ->)].
  - done.
  - rewrite bool_decide_eq_false_2 by (by destruct links).
    rewrite scanLinks_enough by (done || lia). done.
Qed.

Lemma diverges_iff description links :
  diverges description links ↔ ¬ Forall nonEmptyText links.
Proof.
  unfold diverges, parseTextWithLinks. split.
  - intros Hdiv Hall. specialize (Hdiv (S (length description))).
    case_bool_decide; [done|].
    rewrite scanLinks_enough in Hdiv by (done || lia). done.
  - intros Hex fuel.
    rewrite bool_decide_eq_false_2.
    + by rewrite scanLinks_empty.
    + intros Hlen. apply Hex. apply nil_length_inv in Hlen as ->.
      constructor.
Qed.
End Scanning.

(** ** The sort *)

Section Sorting.
Context {A : Type}.
Implicit Types x : LinkPosition A.
Implicit Types l : list (LinkPosition A).

Lemma insertByStart_perm x l : insertByStart x l ≡ₚ x :: l.
Proof.
  induction l as [|y l IH]; simpl; [done|].
  case_bool_decide; [done|]. rewrite IH. apply Permutation_swap.
Qed.

Lemma sortByStart_perm l : sortByStart l ≡ₚ l.
Proof.
  induction l as [|x l IH]; simpl; [done|].
  by rewrite insertByStart_perm, IH.
Qed.

Lemma insertByStart_sorted x l :
  StronglySorted startLe l → StronglySorted startLe (insertByStart x l).
Proof.
  induction 1 as [|y l Hsorted IH Hy]; simpl.
  - repeat constructor.
  - case_bool_decide as Hle.
    + constructor; [by constructor|]. constructor; [done|].
      eapply Forall_impl; [exact Hy|]. unfold startLe. intros; lia.
    + constructor; [done|]. rewrite insertByStart_perm.
      constructor; [unfold startLe; lia | done].
Qed.

Lemma sortByStart_sorted l : StronglySorted startLe (sortByStart l).
Proof.
  induction l as [|x l IH]; simpl; [constructor|].
  by apply insertByStart_sorted.
Qed.

(** An array already in ascending order is left as it is. *)
Lemma sortByStart_id l : StronglySorted startLe l → sortByStart l = l.
Proof.
  induction 1 as [|x l Hsorted IH Hx]; simpl; [done|]. rewrite IH.
  destruct l as [|y l]; simpl; [done|].
  apply Forall_cons in Hx as [Hxy _].
  by rewrite bool_decide_eq_true_2.
Qed.

(** Stability: the entries that start at [p] keep their order. *)
Lemma insertByStart_stable p x l :
  filter (λ a, start a = p) (insertByStart x l)
  = filter (λ a, start a = p) (x :: l).
Proof.
  induction l as [|y l IH]; simpl; [done|].
  case_bool_decide as Hle; [done|].
  rewrite (filter_cons _ y), IH, !(filter_cons _ x), (filter_cons _ y).
  repeat case_decide; done || lia.
Qed.

Lemma sortByStart_stable p l :
  filter (λ a, start a = p) (sortByStart l) = filter (λ a, start a = p) l.
Proof.
  induction l as [|x l IH]; simpl; [done|].
  by rewrite insertByStart_stable, !filter_cons, IH.
Qed.

(** A sorted array splits around the entries that start at [p]. *)
Lemma sorted_split p l :
  StronglySorted startLe l →
  l = filter (λ a, start a < p) l ++ filter (λ a, start a = p) l
      ++ filter (λ a, p < start a) l.
Proof.
  induction 1 as [|x l Hsorted IH Hx]; [done|].
  rewrite !filter_cons.
  destruct (lt_eq_lt_dec (start x) p) as [[Hlt|Heq]|Hgt].
  - rewrite decide_True, !decide_False by lia. simpl. by f_equal.
  - rewrite (decide_False (P:=start x < p)), decide_True, decide_False by lia.
    assert (filter (λ a, start a < p) l = []) as Hnone.
    { apply filter_none. eapply Forall_impl; [exact Hx|].
      unfold startLe. simpl. intros; lia. }
    rewrite Hnone in IH |- *. simpl in *. by f_equal.
  - rewrite !(decide_False (P:=start x < p)), decide_False, decide_True
      by lia.
    assert (filter (λ a, start a < p) l = []) as Hnone1.
    { apply filter_none. eapply Forall_impl; [exact Hx|].
      unfold startLe. simpl. intros; lia. }
    assert (filter (λ a, start a = p) l = []) as Hnone2.
    { apply filter_none. eapply Forall_impl; [exact Hx|].
      unfold startLe. simpl. intros; lia. }
    rewrite Hnone1, Hnone2 in IH |- *. simpl in *. by f_equal.
Qed.

(** With a symmetric relation, "every entry against every later one" does
    not depend on the order of the array. *)
Lemma StronglySorted_symmetric_perm (R : relation (LinkPosition A)) l l' :
  Symmetric R → l ≡ₚ l' → StronglySorted R l → StronglySorted R l'.
Proof.
  intros Hsym Hperm. induction Hperm as [|x l l' Hperm IH|x y l|]; auto.
  - rewrite !StronglySorted_cons. intros [Hx Hl].
    split; [by rewrite <- Hperm | auto].
  - rewrite !StronglySorted_cons, !Forall_cons.
    intros [[Hyx Hy] [Hx Hl]]. repeat split; done.
Qed.

Global Instance disjointSpans_sym : Symmetric (@disjointSpans A).
Proof. unfold disjointSpans. intros a b. lia. Qed.
End Sorting.

(** ** The walk over the sorted positions *)

Section Walk.
Context {A : Type} `{EqDecision A}.
Implicit Types description : list A.
Implicit Types x : LinkPosition A.
Implicit Types l : list (LinkPosition A).

Lemma foldl_pushLink description segments cur l :
  foldl (pushLink description) (segments, cur) l
  = (segments ++ emitted description cur l, cursorAfter cur l).
Proof.
  revert segments cur. induction l as [|x l IH]; intros segments cur; simpl.
  - by rewrite app_nil_r.
  - rewrite IH. f_equal. unfold text_segment, link_segment.
    case_bool_decide; simpl; by rewrite <- ?app_assoc.
Qed.

Lemma buildSegments_emitted description l :
  buildSegments description l
  = emitted description 0 l ++ remainder description (cursorAfter 0 l).
Proof.
  unfold buildSegments, remainder. rewrite foldl_pushLink. simpl.
  case_bool_decide; by rewrite ?app_nil_r.
Qed.

Lemma emitted_app description cur l1 l2 :
  emitted description cur (l1 ++ l2)
  = emitted description cur l1
    ++ emitted description (cursorAfter cur l1) l2.
Proof.
  revert cur. induction l1 as [|x l1 IH]; intros cur; simpl; [done|].
  by rewrite IH, <- app_assoc.
Qed.

Lemma cursorAfter_app cur l1 l2 :
  cursorAfter cur (l1 ++ l2) = cursorAfter (cursorAfter cur l1) l2.
Proof. revert cur. induction l1 as [|x l1 IH]; intros cur; simpl; auto. Qed.

Lemma contents_app (s1 s2 : list (Segment A)) :
  contents (s1 ++ s2) = contents s1 ++ contents s2.
Proof. unfold contents. apply bind_app. Qed.

Lemma slice_from_length description :
  slice_from description (length description) = [].
Proof.
  unfold slice_from, slice. rewrite Nat.min_id, Nat.sub_diag. apply take_0.
Qed.

Lemma slice_from_0 description : slice_from description 0 = description.
Proof.
  unfold slice_from, slice. rewrite Nat.min_id. simpl.
  rewrite Nat.sub_0_r. by apply take_ge.
Qed.

Lemma cursorAfter_bound description cur l :
  cur ≤ length description → Forall (wellPlaced description) l →
  cursorAfter cur l ≤ length description.
Proof.
  intros Hcur Hall. revert cur Hcur.
  induction Hall as [|x l (_ & Hx & _) _ IH]; intros cur Hcur; simpl; auto.
Qed.

(** When every entry ends before the next one starts, the walk cuts the
    description without losing or repeating a code unit. *)
Lemma emitted_contents description cur l :
  cur ≤ length description →
  Forall (wellPlaced description) l →
  Forall (λ x, cur ≤ start x) l →
  StronglySorted endsBefore l →
  contents (emitted description cur l
            ++ remainder description (cursorAfter cur l))
  = slice_from description cur.
Proof.
  intros Hcur Hall. revert cur Hcur.
  induction Hall as [|x l (Hlt & Hend & Htext) Hall IH];
    intros cur Hcur Hstart Hsorted; simpl.
  - unfold remainder. case_bool_decide as Hlt; simpl.
    + unfold contents. simpl. by rewrite app_nil_r.
    + replace cur with (length description) by lia.
      by rewrite slice_from_length.
  - apply Forall_cons in Hstart as [Hx Hstart].
    apply StronglySorted_cons in Hsorted as [Hnext Hsorted].
    rewrite <- app_assoc, contents_app. simpl.
    change (contents (?s :: ?rest)) with (content s ++ contents rest).
    rewrite IH by (done || lia). simpl. rewrite Htext.
    unfold slice_from.
    rewrite (slice_app _ (start x) (end_ x)) by lia.
    case_bool_decide as Hgap; unfold contents; simpl.
    + rewrite app_nil_r, (slice_app _ cur (start x)) by lia. done.
    + by replace cur with (start x) by lia.
Qed.

(** Under the same condition each link segment begins, in the output, at
    the index where its entry starts in the description. *)
Lemma emitted_linkOffsets description cur l :
  cur ≤ length description →
  Forall (wellPlaced description) l →
  Forall (λ x, cur ≤ start x) l →
  StronglySorted endsBefore l →
  linkOffsets cur (emitted description cur l) = start <$> l.
Proof.
  intros Hcur Hall. revert cur Hcur.
  induction Hall as [|x l (Hlt & Hend & Htext) Hall IH];
    intros cur Hcur Hstart Hsorted; simpl; [done|].
  apply Forall_cons in Hstart as [Hx Hstart].
  apply StronglySorted_cons in Hsorted as [Hnext Hsorted].
  assert (length (text x) = end_ x - start x) as Hlen.
  { rewrite Htext. apply slice_length; lia. }
  case_bool_decide as Hgap; simpl.
  - rewrite slice_length by lia.
    replace (cur + (start x - cur)) with (start x) by lia.
    rewrite Hlen. replace (start x + (end_ x - start x)) with (end_ x) by lia.
    by rewrite IH.
  - replace cur with (start x) by lia. rewrite Hlen.
    replace (start x + (end_ x - start x)) with (end_ x) by lia.
    by rewrite IH.
Qed.

(** The walk never appends an empty text segment. *)
Lemma emitted_noEmptyText description cur l :
  Forall (λ x, start x ≤ length description) l →
  noEmptyText (emitted description cur l).
Proof.
  intros Hall. revert cur.
  induction Hall as [|x l Hx _ IH]; intros cur; simpl; [constructor|].
  unfold noEmptyText. apply Forall_app. split.
  - case_bool_decide; repeat constructor. simpl. intros _ Hnil.
    apply (f_equal length) in Hnil. rewrite slice_length in Hnil; simpl in *; lia.
  - constructor; [done | apply IH].
Qed.

Lemma remainder_noEmptyText description cur :
  noEmptyText (remainder description cur).
Proof.
  unfold remainder. case_bool_decide; repeat constructor. simpl.
  intros _ Hnil. apply (f_equal length) in Hnil.
  unfold slice_from in Hnil. rewrite slice_length in Hnil; simpl in *; lia.
Qed.

Lemma emitted_linkSegments description cur l :
  linkSegments (emitted description cur l) = segmentOfPosition <$> l.
Proof.
  revert cur. induction l as [|x l IH]; intros cur; simpl; [done|].
  unfold linkSegments in *. rewrite filter_app, filter_cons_True by done.
  rewrite IH. by case_bool_decide.
Qed.

Lemma remainder_linkSegments description cur :
  linkSegments (remainder description cur) = [].
Proof. unfold remainder. by case_bool_decide. Qed.

(** Entries that start at or before the cursor add their link segments and
    nothing else. *)
Lemma emitted_no_gap description cur l :
  Forall (λ x, start x ≤ cur ∧ start x ≤ end_ x) l →
  Forall (λ x, ∀ y, y ∈ l → start y ≤ end_ x) l →
  emitted description cur l = segmentOfPosition <$> l.
Proof.
  intros Hall. revert cur Hall. induction l as [|x l IH]; intros cur; [done|].
  rewrite !Forall_cons. intros [[Hx _] Hall] [Hend Hrest]. simpl.
  rewrite bool_decide_eq_false_2 by lia. simpl. f_equal.
  apply IH.
  - apply Forall_forall. intros y Hy. split.
    + apply Hend. by right.
    + rewrite Forall_forall in Hall. by apply Hall.
  - eapply Forall_impl; [exact Hrest|]. simpl. intros y Hyl z Hz.
    apply Hyl. by right.
Qed.
End Walk.

(** ** What the scans locate *)

Section Located.
Context {A : Type} `{EqDecision A}.
Implicit Types description : list A.
Implicit Types link : Link A.
Implicit Types links : list (Link A).

Lemma elem_of_occurrences description searchValue i :
  i ∈ occurrences description searchValue ↔
  occursAt description searchValue i ∧ i ≤ length description.
Proof.
  unfold occurrences. rewrite list_elem_of_filter, elem_of_seq.
  intuition lia.
Qed.

Lemma elem_of_located description link x :
  x ∈ located description link ↔
  ∃ i, x = positionAt link i ∧ occursAt description (sectionText link) i
       ∧ i ≤ length description.
Proof.
  unfold located. rewrite list_elem_of_fmap.
  by setoid_rewrite elem_of_occurrences.
Qed.

Lemma elem_of_allLocated description links x :
  x ∈ allLocated description links ↔
  ∃ link, link ∈ links ∧ x ∈ located description link.
Proof.
  unfold allLocated. rewrite list_elem_of_bind.
  split; intros (link & ? & ?); by exists link.
Qed.

Lemma positionAt_wellPlaced description link i :
  nonEmptyText link → occursAt description (sectionText link) i →
  wellPlaced description (positionAt link i).
Proof.
  intros Hne Hocc. destruct (occursAt_bound _ _ _ Hocc Hne) as [Hend _].
  assert (length (sectionText link) ≠ 0)
    by (unfold nonEmptyText in Hne; destruct (sectionText link); done).
  unfold wellPlaced. simpl. split; [lia|]. split; [done|].
  by rewrite slice_take_drop.
Qed.

Lemma allLocated_wellPlaced description links :
  Forall nonEmptyText links →
  Forall (wellPlaced description) (allLocated description links).
Proof.
  intros Hall. apply Forall_forall. intros x.
  rewrite elem_of_allLocated. intros (link & Hlink & Hx).
  apply elem_of_located in Hx as (i & -> & Hocc & _).
  apply positionAt_wellPlaced; [|done].
  rewrite Forall_forall in Hall. by apply Hall.
Qed.

Lemma allLocated_start_bound description links :
  Forall (λ x, start x ≤ length description)
         (allLocated description links).
Proof.
  apply Forall_forall. intros x.
  rewrite elem_of_allLocated. intros (link & Hlink & Hx).
  by apply elem_of_located in Hx as (i & -> & _ & Hi).
Qed.

(** Of one link, at most one entry starts at [p]: the one for an
    occurrence at [p]. *)
Lemma located_at description link p :
  nonEmptyText link →
  filter (λ x, start x = p) (located description link)
  = if decide (occursAt description (sectionText link) p)
    then [positionAt link p] else [].
Proof.
  intros Hne. unfold located.
  assert (∀ l : list nat, NoDup l →
    filter (λ x, start x = p) (positionAt link <$> l)
    = if decide (p ∈ l) then [positionAt link p] else []) as Hgen.
  { induction 1 as [|i l Hi Hnodup IH]; [done|].
    rewrite fmap_cons, filter_cons, IH. simpl.
    destruct (decide (i = p)) as [->|Hip].
    - rewrite decide_False by done.
      rewrite decide_True by (by left). done.
    - destruct (decide (p ∈ l)) as [Hin|Hout].
      + rewrite decide_True by (by right). done.
      + rewrite decide_False; [done|].
        intros [?|?]%elem_of_cons; done. }
  rewrite Hgen by (apply NoDup_filter, NoDup_seq).
  destruct (decide (occursAt _ _ p)) as [Hocc|Hocc].
  - rewrite decide_True; [done|]. apply elem_of_occurrences.
    destruct (occursAt_bound _ _ _ Hocc Hne). split; [done | lia].
  - rewrite decide_False; [done|]. rewrite elem_of_occurrences. tauto.
Qed.

Lemma allLocated_at description links p :
  Forall nonEmptyText links →
  filter (λ x, start x = p) (allLocated description links)
  = (λ link, positionAt link p)
      <$> filter (λ link, occursAt description (sectionText link) p) links.
Proof.
  induction 1 as [|link links Hne _ IH]; [done|].
  rewrite allLocated_cons, filter_app, IH, located_at, filter_cons by done.
  by destruct (decide (occursAt _ _ p)).
Qed.

Lemma located_absent description link :
  (∀ i, ¬ occursAt description (sectionText link) i) →
  nonEmptyText link ∧ located description link = [].
Proof.
  intros Habsent. split.
  - intros Hempty. apply (Habsent 0). by rewrite Hempty.
  - unfold located, occurrences. rewrite filter_none; [done|].
    apply Forall_forall. auto.
Qed.

(** Sorted entries that are pairwise disjoint and not empty end before the
    next one starts. *)
Lemma sorted_disjoint_endsBefore (l : list (LinkPosition A)) :
  StronglySorted startLe l → pairwiseDisjoint l →
  Forall (λ x, start x < end_ x) l → StronglySorted endsBefore l.
Proof.
  unfold pairwiseDisjoint.
  induction l as [|x l IH]; [constructor|].
  rewrite !StronglySorted_cons, Forall_cons.
  intros [Hle Hsorted] [Hdis Hpair] [Hx Hlen]. split; [|by apply IH].
  rewrite Forall_forall in Hle, Hdis, Hlen |- *. intros y Hy.
  specialize (Hle y Hy). specialize (Hdis y Hy). specialize (Hlen y Hy).
  unfold startLe, disjointSpans, endsBefore in *. lia.
Qed.
End Located.

(** ** Properties of the segmenter *)

Section SegmenterProperties.
Context {A : Type} `{EqDecision A}.
Implicit Types description : list A.
Implicit Types link : Link A.
Implicit Types links : list (Link A).
Implicit Types segments : list (Segment A).

Lemma returns_unique description links segments :
  returns description links segments →
  ∀ s, returns description links s ↔ s = segments.
Proof.
  intros Hret s. split; [|by intros ->].
  intros Hs. by eapply returns_functional.
Qed.

(** With no empty [sectionText] the call returns, and the number of rounds
    any of its loops makes is at most the length of the description plus
    one. *)
Lemma parseTextWithLinks_total description links :
  Forall nonEmptyText links →
  ∃ segments,
    parseTextWithLinks (S (length description)) description links
    = Some segments.
Proof.
  intros Hall. unfold parseTextWithLinks. case_bool_decide; [by eexists|].
  rewrite scanLinks_enough by (done || lia). by eexists.
Qed.

Lemma returns_total description links :
  Forall nonEmptyText links → ∃ segments, returns description links segments.
Proof.
  intros Hall. destruct (parseTextWithLinks_total description links Hall)
    as [segments Hret].
  exists segments. by eapply parseTextWithLinks_returns.
Qed.

Lemma linkOffsets_app_text offset segments (texts : list (Segment A)) :
  Forall (λ s, type s = type_text) texts →
  linkOffsets offset (segments ++ texts) = linkOffsets offset segments.
Proof.
  intros Htexts. revert offset.
  induction segments as [|s segments IH]; intros offset; simpl.
  - revert offset. induction Htexts as [|t texts Ht _ IHt]; intros offset;
      simpl; [done|].
    rewrite decide_False by (rewrite Ht; done). by rewrite IHt.
  - by rewrite IH.
Qed.

Lemma remainder_texts description cur :
  Forall (λ s : Segment A, type s = type_text) (remainder description cur).
Proof. unfold remainder. case_bool_decide; repeat constructor. Qed.

(** What the walk produces from pairwise disjoint entries. *)
Lemma buildSegments_disjoint description links :
  Forall nonEmptyText links →
  pairwiseDisjoint (allLocated description links) →
  let sorted := sortByStart (allLocated description links) in
  let segments := buildSegments description sorted in
  StronglySorted endsBefore sorted ∧
  Forall (wellPlaced description) sorted ∧
  contents segments = description ∧
  linkOffsets 0 segments = start <$> sorted ∧
  linkSegments segments = segmentOfPosition <$> sorted.
Proof.
  intros Hne Hdis sorted segments.
  assert (Forall (wellPlaced description) sorted) as Hplaced.
  { unfold sorted. rewrite sortByStart_perm.
    by apply allLocated_wellPlaced. }
  assert (StronglySorted endsBefore sorted) as Hchain.
  { apply sorted_disjoint_endsBefore.
    - apply sortByStart_sorted.
    - eapply StronglySorted_symmetric_perm; [apply _| |exact Hdis].
      symmetry. apply sortByStart_perm.
    - eapply Forall_impl; [exact Hplaced|]. by intros x (? & _). }
  assert (Forall (λ x, 0 ≤ start x) sorted) as Hzero.
  { apply Forall_forall. intros; lia. }
  unfold segments. rewrite buildSegments_emitted.
  repeat split; try done.
  - rewrite emitted_contents by (done || lia). apply slice_from_0.
  - rewrite linkOffsets_app_text by apply remainder_texts.
    apply emitted_linkOffsets; done || lia.
  - unfold linkSegments. rewrite filter_app.
    fold (linkSegments (emitted description 0 sorted)).
    fold (linkSegments (remainder description (cursorAfter 0 sorted))).
    by rewrite emitted_linkSegments, remainder_linkSegments, app_nil_r.
Qed.

(** C3, as amended: when the located occurrences are pairwise disjoint,
    the contents of the returned segments, concatenated in output order,
    are the description; and the call returns whenever no [sectionText] is
    empty. *)
Theorem contents_reproduce_description description links :
  pairwiseDisjoint (allLocated description links) →
  (Forall nonEmptyText links → ∃ s, returns description links s) ∧
  (∀ s, returns description links s → contents s = description).
Proof.
  intros Hdis. split; [apply returns_total|].
  intros s [[-> ->]|(_ & Hne & ->)]%returns_iff.
  - unfold contents. simpl. by rewrite app_nil_r.
  - by apply buildSegments_disjoint.
Qed.

(** C7, as amended: without links the call returns the description as one
    text segment; a link whose [sectionText] occurs nowhere gives the same
    output provided the description is not empty, and no segment at all
    when it is empty. *)
Theorem absent_link_like_no_links description link :
  (∀ s, returns description [] s ↔ s = [text_segment description]) ∧
  ((∀ i, ¬ occursAt description (sectionText link) i) →
   (description ≠ [] →
    ∀ s, returns description [link] s ↔ returns description [] s) ∧
   (description = [] → ∀ s, returns description [link] s ↔ s = [])).
Proof.
  assert (∀ s, returns description [] s ↔ s = [text_segment description])
    as Hnil.
  { intros s. rewrite returns_iff. intuition congruence. }
  split; [done|]. intros Habsent.
  destruct (located_absent _ _ Habsent) as [Hne Hloc].
  assert (∀ s, returns description [link] s ↔
               s = remainder description 0) as Hone.
  { intros s. rewrite returns_iff, allLocated_cons, Hloc. simpl.
    rewrite buildSegments_emitted. simpl. split.
    - intros [[? _]|(_ & _ & ->)]; done.
    - intros ->. right. repeat split; [done | by repeat constructor]. }
  split.
  - intros Hdesc s. rewrite Hone, Hnil. unfold remainder.
    rewrite bool_decide_eq_true_2, slice_from_0; [done|].
    destruct description; simpl; [done | lia].
  - intros -> s. by rewrite Hone.
Qed.

Lemma allLocated_empty_description links :
  Forall nonEmptyText links → allLocated (A:=A) [] links = [].
Proof.
  induction 1 as [|link links Hne _ IH]; [done|].
  rewrite allLocated_cons, IH, app_nil_r.
  unfold located, occurrences. rewrite filter_none; [done|].
  apply Forall_forall. intros i _ Hocc.
  destruct (occursAt_bound _ _ _ Hocc Hne). simpl in *. lia.
Qed.

(** C8, as amended: for the empty description the call returns a single
    empty text segment when there are no links, and no segment at all for
    a non-empty list of links with non-empty [sectionText]s. *)
Theorem empty_description_segments links :
  Forall nonEmptyText links →
  ∀ s, returns [] links s ↔
       s = match links with [] => [text_segment []] | _ :: _ => [] end.
Proof.
  intros Hne s. rewrite returns_iff, allLocated_empty_description by done.
  destruct links as [|link links]; simpl.
  - intuition congruence.
  - split.
    + intros [[? _]|(_ & _ & ->)]; done.
    + intros ->. by right.
Qed.

(** C9: for a non-empty description and a non-empty list of links, no text
    segment of the output is empty; and there is an output whenever no
    [sectionText] is empty. *)
Theorem no_empty_text_segment description links :
  description ≠ [] → links ≠ [] →
  (Forall nonEmptyText links → ∃ s, returns description links s) ∧
  (∀ s, returns description links s → noEmptyText s).
Proof.
  intros Hdesc Hlinks. split; [apply returns_total|].
  intros s [[? _]|(_ & _ & ->)]%returns_iff; [done|].
  rewrite buildSegments_emitted. apply Forall_app. split.
  - apply emitted_noEmptyText. rewrite sortByStart_perm.
    apply allLocated_start_bound.
  - apply remainder_noEmptyText.
Qed.

Lemma buildSegments_linkSegments description (l : list (LinkPosition A)) :
  linkSegments (buildSegments description l) = segmentOfPosition <$> l.
Proof.
  rewrite buildSegments_emitted. unfold linkSegments. rewrite filter_app.
  fold (linkSegments (emitted description 0 l)).
  fold (linkSegments (remainder description (cursorAfter 0 l))).
  by rewrite emitted_linkSegments, remainder_linkSegments, app_nil_r.
Qed.

Lemma located_NoDup description link : NoDup (located description link).
Proof.
  unfold located. apply NoDup_fmap_2.
  - intros i j Hij. by apply (f_equal start) in Hij.
  - apply NoDup_filter, NoDup_seq.
Qed.

Lemma located_same_start description link x y :
  x ∈ located description link → y ∈ located description link →
  start x = start y → x = y.
Proof.
  intros (i & -> & _)%elem_of_located (j & -> & _)%elem_of_located.
  simpl. by intros ->.
Qed.

Lemma crossDisjoint_start (l1 l2 : list (LinkPosition A)) x y :
  crossDisjoint l1 l2 →
  Forall (λ x, start x < end_ x) l1 → Forall (λ x, start x < end_ x) l2 →
  x ∈ l1 → y ∈ l2 → start x ≠ start y.
Proof.
  unfold crossDisjoint. rewrite !Forall_forall.
  intros Hcross Hl1 Hl2 Hx Hy Hstart.
  specialize (Hcross x Hx). rewrite Forall_forall in Hcross.
  specialize (Hcross y Hy). specialize (Hl1 x Hx). specialize (Hl2 y Hy).
  unfold disjointSpans in Hcross. lia.
Qed.

Lemma pairwiseDisjoint_cross (l1 l2 : list (LinkPosition A)) :
  pairwiseDisjoint (l1 ++ l2) → crossDisjoint l1 l2.
Proof.
  unfold pairwiseDisjoint, crossDisjoint.
  rewrite StronglySorted_app, !Forall_forall.
  intros (Hcross & _ & _) x Hx. apply Forall_forall. auto.
Qed.

(** Sorted entries without repetition whose starts tell them apart are in
    strictly ascending order. *)
Lemma sorted_strict (l : list (LinkPosition A)) :
  StronglySorted startLe l → NoDup l →
  (∀ x y, x ∈ l → y ∈ l → start x = start y → x = y) →
  StronglySorted (λ x y, start x < start y) l.
Proof.
  induction l as [|x l IH]; [constructor|].
  rewrite !StronglySorted_cons, NoDup_cons.
  intros [Hle Hsorted] [Hx Hnodup] Hinj. split.
  - rewrite Forall_forall in Hle |- *. intros y Hy.
    specialize (Hle y Hy). unfold startLe in Hle.
    destruct (decide (start x = start y)) as [Heq|]; [|lia].
    apply Hinj in Heq; [by subst | by left | by right].
  - apply IH; try done. intros y z Hy Hz. apply Hinj; by right.
Qed.

(** The entries of two links without an empty [sectionText] whose
    occurrences do not meet: no two start at the same index. *)
Lemma crossDisjoint_distinct description (a b : Link A) :
  nonEmptyText a → nonEmptyText b →
  crossDisjoint (located description a) (located description b) →
  NoDup (located description a ++ located description b) ∧
  ∀ x y, x ∈ located description a ++ located description b →
         y ∈ located description a ++ located description b →
         start x = start y → x = y.
Proof.
  intros Ha Hb Hcross.
  assert (∀ link, nonEmptyText link →
            Forall (λ x, start x < end_ x) (located description link))
    as Hlen.
  { intros link Hlink.
    pose proof (allLocated_wellPlaced description [link]) as Hplaced.
    rewrite allLocated_cons, app_nil_r in Hplaced.
    eapply Forall_impl; [apply Hplaced; by repeat constructor|].
    by intros x (? & _). }
  assert (∀ x y, x ∈ located description a → y ∈ located description b →
                 start x ≠ start y) as Hdiff.
  { intros x y. apply crossDisjoint_start; auto. }
  split.
  - apply NoDup_app. split; [apply located_NoDup|].
    split; [|apply located_NoDup].
    intros x Hx Hx'. by apply (Hdiff x x).
  - intros x y [Hx|Hx]%elem_of_app [Hy|Hy]%elem_of_app Hstart.
    + by eapply located_same_start.
    + by apply Hdiff in Hstart.
    + symmetry in Hstart. by apply Hdiff in Hstart.
    + by eapply located_same_start.
Qed.

Lemma declaration_order_nonEmpty description (a b : Link A) :
  nonEmptyText a → nonEmptyText b →
  crossDisjoint (located description a) (located description b) →
  ∃ segments spans,
    (∀ s, returns description [a; b] s ↔ s = segments) ∧
    (∀ s, returns description [b; a] s ↔ s = segments) ∧
    spans ≡ₚ located description a ++ located description b ∧
    StronglySorted (λ x y, start x < start y) spans ∧
    linkSegments segments = segmentOfPosition <$> spans ∧
    (pairwiseDisjoint (located description a ++ located description b) →
     linkOffsets 0 segments = start <$> spans ∧
     contents segments = description).
Proof.
  intros Ha Hb Hcross.
  destruct (crossDisjoint_distinct description a b Ha Hb Hcross)
    as [Hnodup Hinj].
  assert (allLocated description [a; b]
          = located description a ++ located description b) as Hab.
  { by rewrite !allLocated_cons, app_nil_r. }
  assert (allLocated description [b; a]
          = located description b ++ located description a) as Hba.
  { by rewrite !allLocated_cons, app_nil_r. }
  assert (Forall nonEmptyText [a; b]) as Hne by (by repeat constructor).
  assert (Forall nonEmptyText [b; a]) as Hne' by (by repeat constructor).
  rewrite <- Hab in Hnodup, Hinj.
  set (spans := sortByStart (allLocated description [a; b])).
  assert (spans ≡ₚ allLocated description [a; b]) as Hperm
    by apply sortByStart_perm.
  assert (sortByStart (allLocated description [b; a]) = spans) as Hsame.
  { apply (StronglySorted_unique_strong startLe);
      [|apply sortByStart_sorted..|].
    - intros x y Hx Hy Hxy Hyx. unfold startLe in *.
      rewrite sortByStart_perm, Hba, (comm (++)), <- Hab in Hx.
      rewrite Hperm in Hy. apply Hinj; done || lia.
    - by rewrite Hperm, sortByStart_perm, Hab, Hba, (comm (++)). }
  exists (buildSegments description spans), spans.
  split; [|split; [|split; [|split; [|split]]]].
  - apply returns_unique, returns_iff. right. by repeat split.
  - apply returns_unique, returns_iff. right. rewrite Hsame.
    by repeat split.
  - by rewrite Hperm, Hab.
  - apply sorted_strict.
    + apply sortByStart_sorted.
    + by rewrite Hperm.
    + intros x y Hx Hy. rewrite Hperm in Hx, Hy. by apply Hinj.
  - apply buildSegments_linkSegments.
  - intros Hdis. rewrite <- Hab in Hdis.
    by destruct (buildSegments_disjoint description [a; b] Hne Hdis)
      as (_ & _ & ? & ? & _).
Qed.

(** C6: two links whose occurrences do not meet give the same output in
    both declaration orders, and the link segments of that output follow
    the positions of the occurrences in the description, not the order of
    the links: their entries are in strictly ascending [start].  When the
    occurrences of each link do not overlap one another either, each link
    segment begins, in the output, at the [start] of its entry, and the
    contents add up to the description.  There is an output whenever
    neither [sectionText] is empty. *)
Theorem declaration_order_irrelevant description (a b : Link A) :
  crossDisjoint (located description a) (located description b) →
  (nonEmptyText a → nonEmptyText b → ∃ s, returns description [a; b] s) ∧
  (∀ s, returns description [a; b] s ↔ returns description [b; a] s) ∧
  (∀ s, returns description [a; b] s →
     ∃ spans,
       spans ≡ₚ located description a ++ located description b ∧
       StronglySorted (λ x y, start x < start y) spans ∧
       linkSegments s = segmentOfPosition <$> spans ∧
       (pairwiseDisjoint
          (located description a ++ located description b) →
        linkOffsets 0 s = start <$> spans ∧ contents s = description)).
Proof.
  intros Hcross.
  assert (∀ s, returns description [a; b] s ∨ returns description [b; a] s →
               nonEmptyText a ∧ nonEmptyText b) as Hne.
  { intros s [[[? _]|(_ & Hall & _)]%returns_iff
             |[[? _]|(_ & Hall & _)]%returns_iff]; try done.
    - by apply Forall_cons in Hall as [? [? _]%Forall_cons].
    - by apply Forall_cons in Hall as [? [? _]%Forall_cons]. }
  split; [|split].
  - intros Ha Hb. apply returns_total. by repeat constructor.
  - intros s. split; intros Hret.
    + destruct (Hne s (or_introl Hret)) as [Ha Hb].
      destruct (declaration_order_nonEmpty description a b Ha Hb Hcross)
        as (segments & _ & Hab & Hba & _).
      apply Hba. by apply Hab.
    + destruct (Hne s (or_intror Hret)) as [Ha Hb].
      destruct (declaration_order_nonEmpty description a b Ha Hb Hcross)
        as (segments & _ & Hab & Hba & _).
      apply Hab. by apply Hba.
  - intros s Hret. destruct (Hne s (or_introl Hret)) as [Ha Hb].
    destruct (declaration_order_nonEmpty description a b Ha Hb Hcross)
      as (segments & spans & Hab & _ & Hrest).
    apply Hab in Hret as ->. by exists spans.
Qed.

Lemma emitted_same_start description cur p links :
  ∃ gap : list (Segment A),
    emitted description cur ((λ link, positionAt link p) <$> links)
    = gap ++ (segmentOfLink <$> links) ∧
    linkSegments gap = [].
Proof.
  destruct links as [|link links]; [by exists []|]. simpl.
  exists (if bool_decide (cur < p)
          then [text_segment (slice description cur p)] else []).
  split; [|by case_bool_decide].
  f_equal. f_equal. rewrite emitted_no_gap.
  - by rewrite <- list_fmap_compose.
  - apply Forall_fmap, Forall_forall. intros l _. simpl. lia.
  - apply Forall_fmap, Forall_forall. intros l _ y.
    intros (l' & -> & _)%list_elem_of_fmap. simpl. lia.
Qed.

(** C10: the links that match at the same index [p] each get a link
    segment of their own, carrying their own [sectionUrl]; these segments
    are adjacent in the output and follow the declaration order of the
    links.  The entries that start at [p] are exactly theirs, and the link
    segments before and after the block belong to the entries that start
    before and after [p].  There is an output whenever no [sectionText] is
    empty. *)
Theorem same_start_links_adjacent description links (p : nat) :
  let matching :=
    filter (λ link, occursAt description (sectionText link) p) links in
  (Forall nonEmptyText links → ∃ s, returns description links s) ∧
  (∀ s, returns description links s →
     ∃ low high before after,
       (∀ fuel linkPositions,
          scanLinks fuel description links [] = Some linkPositions →
          sortByStart linkPositions
          = low ++ ((λ link, positionAt link p) <$> matching) ++ high) ∧
       Forall (λ x, start x < p) low ∧ Forall (λ x, p < start x) high ∧
       s = before ++ (segmentOfLink <$> matching) ++ after ∧
       linkSegments before = segmentOfPosition <$> low ∧
       linkSegments after = segmentOfPosition <$> high).
Proof.
  intros matching. split; [apply returns_total|].
  intros s [[-> ->]|(Hlinks & Hne & ->)]%returns_iff.
  { exists [], [], [text_segment description], [].
    repeat split; try done. by intros fuel linkPositions [= <-]. }
  set (sorted := sortByStart (allLocated description links)).
  pose proof (sorted_split p sorted (sortByStart_sorted _)) as Hsplit.
  unfold sorted in Hsplit at 3.
  rewrite sortByStart_stable, allLocated_at in Hsplit by done.
  fold matching in Hsplit.
  set (low := filter (λ x, start x < p) sorted) in *.
  set (high := filter (λ x, p < start x) sorted) in *.
  set (mid := (λ link, positionAt link p) <$> matching) in *.
  destruct (emitted_same_start description (cursorAfter 0 low) p matching)
    as (gap & Hmid & Hgap). fold mid in Hmid.
  exists low, high, (emitted description 0 low ++ gap),
    (emitted description (cursorAfter (cursorAfter 0 low) mid) high
     ++ remainder description (cursorAfter 0 sorted)).
  split; [|split; [|split; [|split; [|split]]]].
  - by intros fuel linkPositions [_ ->]%scanLinks_Some.
  - apply Forall_forall. by intros x [? _]%list_elem_of_filter.
  - apply Forall_forall. by intros x [? _]%list_elem_of_filter.
  - rewrite buildSegments_emitted.
    assert (emitted description 0 sorted
            = emitted description 0 low ++ gap
              ++ (segmentOfLink <$> matching)
              ++ emitted description
                   (cursorAfter (cursorAfter 0 low) mid) high) as ->.
    { rewrite Hsplit, !emitted_app, Hmid. by rewrite <- !app_assoc. }
    by rewrite <- !app_assoc.
  - unfold linkSegments in *. rewrite filter_app, Hgap, app_nil_r.
    apply emitted_linkSegments.
  - unfold linkSegments. rewrite filter_app.
    fold (linkSegments (remainder description (cursorAfter 0 sorted))).
    rewrite remainder_linkSegments, app_nil_r. apply emitted_linkSegments.
Qed.
End SegmenterProperties.

(** ** The segmenter on concrete inputs *)

Example go_go_go :
  parseTextWithLinks 9 (js "go go go") [mkLink (js "go") (js "u")]
  = Some [link_segment (js "go") (js "u"); text_segment (js " ");
          link_segment (js "go") (js "u"); text_segment (js " ");
          link_segment (js "go") (js "u")].
Proof. vm_compute. reflexivity. Qed.

Example docs_and_site :
  parseTextWithLinks 40 (js "Read the docs and visit the site")
    [mkLink (js "the site") (js "u2"); mkLink (js "the docs") (js "u1")]
  = Some [text_segment (js "Read ");
          link_segment (js "the docs") (js "u1");
          text_segment (js " and visit ");
          link_segment (js "the site") (js "u2")].
Proof. vm_compute. reflexivity. Qed.

Example whole_description_is_link :
  parseTextWithLinks 9 (js "docs") [mkLink (js "docs") (js "u")]
  = Some [link_segment (js "docs") (js "u")].
Proof. vm_compute. reflexivity. Qed.

Ltac concrete_returns n :=
  apply returns_unique; exists n; vm_compute; reflexivity.

Ltac concrete_nonEmpty :=
  repeat constructor; unfold nonEmptyText; simpl; discriminate.

Ltac concrete_decide := apply (bool_decide_unpack _); vm_compute; exact I.

(** C1, at the failing input: with an empty [sectionText] every [indexOf]
    call finds a match, so the loop never reaches its [break] and the call
    does not return, whatever number of rounds it is given. *)
Theorem empty_sectionText_never_returns :
  (∀ k, indexOf (js "abc") (js "") k = Some (k `min` 3)) ∧
  diverges (js "abc") [mkLink (js "") (js "u")].
Proof.
  split.
  - intros k. apply (indexOf_empty (js "abc")).
  - apply diverges_iff. intros Hall. apply Forall_cons in Hall as [Hne _].
    by apply Hne.
Qed.

(** C3 fails as stated: the two occurrences of "aa" in "aaa" overlap, both
    become link segments, and the contents add up to "aaaa". *)
Lemma contents_overlap_counterexample :
  ∃ s, returns (js "aaa") [mkLink (js "aa") (js "u")] s ∧
       contents s ≠ js "aaa".
Proof.
  eexists. split.
  - exists 4. vm_compute. reflexivity.
  - vm_compute. discriminate.
Qed.

Lemma contents_reproduce_description_witness :
  let description := js "Read the docs and visit the site" in
  let links := [mkLink (js "the site") (js "u2");
                mkLink (js "the docs") (js "u1")] in
  let s := [text_segment (js "Read "); link_segment (js "the docs") (js "u1");
            text_segment (js " and visit ");
            link_segment (js "the site") (js "u2")] in
  (∃ s', returns description links s') ∧
  returns description links s ∧ contents s = description.
Proof.
  intros description links s.
  destruct (contents_reproduce_description description links) as [Hex Hall].
  - concrete_decide.
  - assert (returns description links s) as Hret
      by (exists 33; vm_compute; reflexivity).
    split; [|split; [exact Hret | exact (Hall s Hret)]].
    apply Hex. concrete_nonEmpty.
Defined.

(** C5: a scan resumes at the index after the start of the previous match.
    In "go go go" the matches of "go" are at 0, 3 and 6 and the call returns
    link, " ", link, " ", link; in "aaa" the matches of "aa" at 0 and 1 are
    both found, which a scan resuming at the end of a match would not do. *)
Theorem go_go_go_segments :
  let go := mkLink (js "go") (js "u") in
  (∀ (description : list Ascii.ascii) link fuel startIndex linkPositions,
     scanLink (S fuel) description link startIndex linkPositions
     = match indexOf description (sectionText link) startIndex with
       | None => Some linkPositions
       | Some index =>
           scanLink fuel description link (index + 1)
             (linkPositions ++ [positionAt link index])
       end) ∧
  scanLinks 4 (js "go go go") [go] []
  = Some [positionAt go 0; positionAt go 3; positionAt go 6] ∧
  (∀ s, returns (js "go go go") [go] s ↔
        s = [link_segment (js "go") (js "u"); text_segment (js " ");
             link_segment (js "go") (js "u"); text_segment (js " ");
             link_segment (js "go") (js "u")]) ∧
  scanLinks 3 (js "aaa") [mkLink (js "aa") (js "u")] []
  = Some [mkLinkPosition 0 2 (js "aa") (js "u");
          mkLinkPosition 1 3 (js "aa") (js "u")].
Proof.
  repeat split; try done.
  - intros Hret. revert s Hret. concrete_returns 4.
  - intros ->. exists 4. vm_compute. reflexivity.
Qed.

Lemma declaration_order_irrelevant_witness :
  let description := js "Read the docs and visit the site" in
  let site := mkLink (js "the site") (js "u2") in
  let docs := mkLink (js "the docs") (js "u1") in
  (∃ s, returns description [site; docs] s) ∧
  (∀ s, returns description [site; docs] s ↔
        returns description [docs; site] s) ∧
  (∀ s, returns description [site; docs] s →
     ∃ spans,
       spans ≡ₚ located description site ++ located description docs ∧
       StronglySorted (λ x y, start x < start y) spans ∧
       linkSegments s = segmentOfPosition <$> spans ∧
       linkOffsets 0 s = start <$> spans ∧ contents s = description).
Proof.
  intros description site docs.
  destruct (declaration_order_irrelevant description site docs)
    as (Hex & Hsame & Hsorted).
  - concrete_decide.
  - split; [|split; [done|]].
    + apply Hex; unfold nonEmptyText; simpl; discriminate.
    + intros s Hret.
      destruct (Hsorted s Hret) as (spans & Hperm & Hstrict & Hlinks & Hrest).
      exists spans. repeat split; try done; apply Hrest; concrete_decide.
Defined.

(** C7 fails as stated at the empty description: "x" occurs nowhere in it,
    yet with the link the call returns no segment, and without links it
    returns one empty text segment. *)
Lemma absent_link_empty_description_counterexample :
  (∀ i, ¬ occursAt (js "") (js "x") i) ∧
  returns (js "") [mkLink (js "x") (js "u")] [] ∧
  ¬ returns (js "") [] [].
Proof.
  split; [|split].
  - intros i Hocc. destruct (occursAt_bound _ _ _ Hocc); simpl in *; [done|lia].
  - exists 1. vm_compute. reflexivity.
  - intros [[_ Hs]|(Hl & _)]%returns_iff; done.
Qed.

Lemma absent_link_like_no_links_witness :
  (∀ s, returns (js "abc") [] s ↔ s = [text_segment (js "abc")]) ∧
  (∀ s, returns (js "abc") [mkLink (js "x") (js "u")] s ↔
        returns (js "abc") [] s).
Proof.
  destruct (absent_link_like_no_links (js "abc") (mkLink (js "x") (js "u")))
    as [Hnil Habsent].
  split; [exact Hnil|]. apply Habsent.
  - intros i Hocc.
    destruct (occursAt_bound _ _ _ Hocc) as [Hi _]; [done|].
    simpl in Hi. assert (i = 0 ∨ i = 1 ∨ i = 2) as Hcases by lia.
    destruct Hcases as [-> | [-> | ->]]; vm_compute in Hocc; discriminate.
  - discriminate.
Defined.

(** C8 fails as stated: for the empty description and the link "x" the
    call returns no segment, not one empty text segment. *)
Lemma empty_description_counterexample :
  ∃ s, returns (js "") [mkLink (js "x") (js "u")] s ∧
       s ≠ [text_segment (js "")].
Proof.
  exists []. split; [|discriminate]. exists 1. vm_compute. reflexivity.
Qed.

Lemma empty_description_segments_witness :
  (∀ s, returns (js "") [] s ↔ s = [text_segment (js "")]) ∧
  (∀ s, returns (js "") [mkLink (js "x") (js "u")] s ↔ s = []).
Proof.
  split.
  - apply (empty_description_segments (A:=Ascii.ascii) []). constructor.
  - apply (empty_description_segments [mkLink (js "x") (js "u")]).
    concrete_nonEmpty.
Defined.

Lemma no_empty_text_segment_witness :
  (∃ s, returns (js "go go go") [mkLink (js "go") (js "u")] s) ∧
  (∀ s, returns (js "go go go") [mkLink (js "go") (js "u")] s →
        noEmptyText s).
Proof.
  destruct (no_empty_text_segment (js "go go go")
              [mkLink (js "go") (js "u")]) as [Hex Hall];
    [discriminate.. |].
  split; [|exact Hall]. apply Hex. concrete_nonEmpty.
Defined.

Lemma same_start_links_adjacent_witness :
  let description := js "go go" in
  let links := [mkLink (js "go") (js "u1"); mkLink (js "go") (js "u2")] in
  let s := [link_segment (js "go") (js "u1");
            link_segment (js "go") (js "u2"); text_segment (js " ");
            link_segment (js "go") (js "u1");
            link_segment (js "go") (js "u2")] in
  returns description links s ∧
  ∃ low high before after,
    (∀ fuel linkPositions,
       scanLinks fuel description links [] = Some linkPositions →
       sortByStart linkPositions
       = low ++ ((λ link, positionAt link 3) <$> links) ++ high) ∧
    Forall (λ x, start x < 3) low ∧ Forall (λ x, 3 < start x) high ∧
    s = before
        ++ [link_segment (js "go") (js "u1");
            link_segment (js "go") (js "u2")] ++ after ∧
    linkSegments before = segmentOfPosition <$> low ∧
    linkSegments after = segmentOfPosition <$> high.
Proof.
  intros description links s.
  assert (returns description links s) as Hret
    by (exists 3; vm_compute; reflexivity).
  split; [exact Hret|].
  exact (proj2 (same_start_links_adjacent description links 3) s Hret).
Defined.

Example overlapping_link_either_order :
  let aa := mkLink (js "aa") (js "u1") in
  let b := mkLink (js "b") (js "u2") in
  let s := [link_segment (js "aa") (js "u1");
            link_segment (js "aa") (js "u1"); text_segment (js " ");
            link_segment (js "b") (js "u2")] in
  parseTextWithLinks 6 (js "aaa b") [aa; b] = Some s ∧
  parseTextWithLinks 6 (js "aaa b") [b; aa] = Some s.
Proof. split; vm_compute; reflexivity. Qed.

Example same_start_links :
  parseTextWithLinks 9 (js "go go")
    [mkLink (js "go") (js "u1"); mkLink (js "go") (js "u2")]
  = Some [link_segment (js "go") (js "u1"); link_segment (js "go") (js "u2");
          text_segment (js " ");
          link_segment (js "go") (js "u1"); link_segment (js "go") (js "u2")].
Proof. vm_compute. reflexivity. Qed.

(** * Part II, proofs: the schedule *)

Section Queue.
Implicit Types t : Timer.
Implicit Types q : list Timer.

Lemma enqueue_perm t q : enqueue t q ≡ₚ t :: q.
Proof.
  induction q as [|x q IH]; simpl; [done|].
  case_bool_decide; [|done]. rewrite IH. apply Permutation_swap.
Qed.

Lemma enqueue_sorted t q :
  StronglySorted dueLe q → StronglySorted dueLe (enqueue t q).
Proof.
  induction 1 as [|x q Hsorted IH Hx]; simpl.
  - repeat constructor.
  - case_bool_decide as Hle.
    + constructor; [done|]. rewrite enqueue_perm. by constructor.
    + constructor; [by constructor|]. constructor; [unfold dueLe; lia|].
      eapply Forall_impl; [exact Hx|]. unfold dueLe. intros; lia.
Qed.

(** A timer due no earlier than all the pending ones goes last. *)
Lemma enqueue_last t q :
  Forall (λ x, due x ≤ due t)%N q → enqueue t q = q ++ [t].
Proof.
  induction 1 as [|x q Hx _ IH]; simpl; [done|].
  by rewrite bool_decide_eq_true_2, IH.
Qed.

Lemma foldl_enqueue_perm {B} (f : B → Timer) (l : list B) q :
  foldl (λ q i, enqueue (f i) q) q l ≡ₚ q ++ (f <$> l).
Proof.
  revert q. induction l as [|i l IH]; intros q; simpl.
  - by rewrite app_nil_r.
  - rewrite IH, enqueue_perm. by rewrite <- Permutation_middle.
Qed.

Lemma foldl_enqueue_sorted {B} (f : B → Timer) (l : list B) q :
  StronglySorted dueLe q →
  StronglySorted dueLe (foldl (λ q i, enqueue (f i) q) q l).
Proof.
  revert q. induction l as [|i l IH]; intros q Hq; simpl; [done|].
  by apply IH, enqueue_sorted.
Qed.
End Queue.

Section Schedule.
Variable cfg : AnimationConfig.
Variable n : nat.

Local Notation "'F'" := (FADE_IN_DURATION cfg).

Lemma Feature_effects_false w : Feature_effects cfg n false w = w.
Proof.
  unfold Feature_effects. generalize (seq 0 n). intros l.
  induction l as [|i l IH]; simpl; done.
Qed.

Lemma Feature_effects_true c q m b log :
  Feature_effects cfg n true (mkWorld c q m b log)
  = mkWorld c (foldl (λ q i, enqueue (featureTimer cfg c i) q) q (seq 0 n))
            m b log.
Proof.
  unfold Feature_effects. generalize (seq 0 n). intros l. revert q.
  induction l as [|i l IH]; intros q; simpl; [done|].
  unfold setTimeout at 2. simpl. by rewrite IH.
Qed.

(** The state right after the mount: two animations started, three timers
    pending. *)
Lemma mount_eq :
  mount cfg n
  = mkWorld 0
      [mkTimer F moveUp; mkTimer (triggerTime cfg) triggerFeatures;
       mkTimer (blurTime cfg n) showBlurView]
      true false
      [mkStarted 0 iconTitleOpacity F; mkStarted 0 iconTitleScale F].
Proof.
  unfold mount. rewrite Feature_effects_false.
  unfold OnboardingView_effect, setTimeout, timing_start, blurTime,
    triggerTime.
  cbn [clock timers mounted shouldAnimateFeatures started app].
  rewrite !N.add_0_l.
  rewrite (enqueue_last _ []) by constructor. cbn [app].
  rewrite (enqueue_last _ [_]) by (repeat constructor; simpl; lia).
  cbn [app].
  rewrite (enqueue_last _ [_; _]) by (repeat constructor; simpl; lia).
  done.
Qed.

Lemma fire_registersNothing f c q m b log :
  f ≠ triggerFeatures →
  fire cfg n f (mkWorld c q m b log)
  = mkWorld c q m b (log ++ startedBy cfg c f).
Proof.
  intros Hf. destruct f; try done; unfold fire, timing_start; simpl.
  by rewrite <- app_assoc.
Qed.

(** When no pending callback registers timers, the callbacks due by
    [until] run in queue order and the others stay. *)
Lemma run_registersNothing fuel until c q m b log :
  Forall registersNothing q → StronglySorted dueLe q →
  length q < fuel →
  run cfg n fuel until (mkWorld c q m b log)
  = Some (mkWorld until (filter (λ t, until < due t)%N q) m b
            (log ++ (filter (λ t, due t ≤ until)%N q
                       ≫= λ t, startedBy cfg (due t) (callback t)))).
Proof.
  intros Hleaf. revert fuel c log.
  induction Hleaf as [|t q Ht Hleaf IH]; intros fuel c log Hsorted Hfuel.
  - destruct fuel; [simpl in Hfuel; lia|]. simpl. by rewrite app_nil_r.
  - destruct fuel as [|fuel]; [simpl in Hfuel; lia|]. simpl in Hfuel |- *.
    apply StronglySorted_cons in Hsorted as [Hrest Hsorted].
    case_bool_decide as Hdue.
    + rewrite fire_registersNothing by done.
      rewrite IH by (done || lia).
      rewrite filter_cons_False by lia. rewrite filter_cons_True by done.
      rewrite bind_cons. by rewrite <- app_assoc.
    + assert (Forall (λ x, ¬ (due x ≤ until)%N) q) as Hlater.
      { eapply Forall_impl; [exact Hrest|]. unfold dueLe. simpl.
        intros; lia. }
      rewrite filter_cons_True by lia. rewrite filter_cons_False by done.
      rewrite (filter_none _ _ Hlater).
      assert (filter (λ x, until < due x)%N q = q) as ->.
      { clear -Hlater. induction Hlater as [|x q Hx _ IH]; [done|].
        rewrite filter_cons_True by lia. by rewrite IH. }
      by rewrite app_nil_r.
Qed.

Lemma elem_of_fired (e : Started) until (q : list Timer) :
  e ∈ (filter (λ t, due t ≤ until)%N q
         ≫= λ t, startedBy cfg (due t) (callback t)) ↔
  ∃ t, t ∈ q ∧ (due t ≤ until)%N ∧ e ∈ startedBy cfg (due t) (callback t).
Proof.
  rewrite list_elem_of_bind. split.
  - intros (t & He & [Hdue Ht]%list_elem_of_filter). by exists t.
  - intros (t & Ht & Hdue & He). exists t. split; [done|].
    by apply list_elem_of_filter.
Qed.

(** The timers pending once the flag has flipped. *)
Lemma elem_of_feature_timers (q : list Timer) t :
  q ≡ₚ mkTimer (blurTime cfg n) showBlurView
       :: (featureTimer cfg (triggerTime cfg) <$> seq 0 n) →
  t ∈ q ↔
  t = mkTimer (blurTime cfg n) showBlurView ∨
  ∃ i, i < n ∧ t = mkTimer (featureTime cfg i) (animateFeature i).
Proof.
  intros ->. rewrite elem_of_cons, list_elem_of_fmap.
  setoid_rewrite elem_of_seq. split.
  - intros [->|(i & -> & Hi)]; [by left|]. right. exists i. split; [lia|done].
  - intros [->|(i & Hi & ->)]; [by left|]. right. exists i. split; [done|lia].
Qed.

(** A run of the mounted screen that goes past the flip of the flag. *)
Lemma run_mount fuel until :
  (triggerTime cfg ≤ until)%N → n + 4 ≤ fuel →
  ∃ q,
    q ≡ₚ mkTimer (blurTime cfg n) showBlurView
         :: (featureTimer cfg (triggerTime cfg) <$> seq 0 n) ∧
    run cfg n fuel until (mount cfg n)
    = Some (mkWorld until (filter (λ t, until < due t)%N q) true true
              ([mkStarted 0 iconTitleOpacity F;
                mkStarted 0 iconTitleScale F;
                mkStarted F iconTitleTranslateY (MOVE_UP_DURATION cfg)]
               ++ (filter (λ t, due t ≤ until)%N q
                     ≫= λ t, startedBy cfg (due t) (callback t)))).
Proof.
  intros Huntil Hfuel.
  destruct fuel as [|[|fuel]]; [lia..|].
  set (blur := mkTimer (blurTime cfg n) showBlurView).
  set (q := foldl (λ q i, enqueue (featureTimer cfg (triggerTime cfg) i) q)
                  [blur] (seq 0 n)).
  assert (q ≡ₚ blur :: (featureTimer cfg (triggerTime cfg) <$> seq 0 n))
    as Hperm by apply (foldl_enqueue_perm _ _ [blur]).
  exists q. split; [done|].
  rewrite mount_eq. fold blur. unfold triggerTime in Huntil.
  cbn [run timers due callback].
  rewrite bool_decide_eq_true_2 by lia.
  cbn [fire timing_start clock timers mounted shouldAnimateFeatures started
       due callback app].
  rewrite bool_decide_eq_true_2 by (unfold triggerTime; lia).
  cbn [fire setShouldAnimateFeatures mounted shouldAnimateFeatures clock
       timers started due callback].
  rewrite bool_decide_eq_false_2 by done.
  rewrite Feature_effects_true. fold q.
  rewrite run_registersNothing; [done| | |].
  - rewrite Hperm. constructor; [done|].
    apply Forall_fmap, Forall_forall. by intros i _.
  - apply foldl_enqueue_sorted. repeat constructor.
  - rewrite Hperm. simpl. rewrite length_fmap, length_seq. lia.
Qed.

Lemma run_mount_started fuel until :
  (triggerTime cfg ≤ until)%N → n + 4 ≤ fuel →
  ∃ w, run cfg n fuel until (mount cfg n) = Some w ∧
    ∀ e, e ∈ started w ↔
      e ∈ [mkStarted 0 iconTitleOpacity F; mkStarted 0 iconTitleScale F;
           mkStarted F iconTitleTranslateY (MOVE_UP_DURATION cfg)] ∨
      ((blurTime cfg n ≤ until)%N ∧
       e = mkStarted (blurTime cfg n) blurViewOpacity (FEATURE_DURATION cfg))
      ∨ ∃ i, i < n ∧ (featureTime cfg i ≤ until)%N ∧
             e ∈ startedBy cfg (featureTime cfg i) (animateFeature i).
Proof.
  intros Huntil Hfuel.
  destruct (run_mount fuel until Huntil Hfuel) as (q & Hperm & Hrun).
  eexists. split; [exact Hrun|]. intros e.
  cbn [started]. rewrite elem_of_app, elem_of_fired.
  setoid_rewrite (elem_of_feature_timers q _ Hperm).
  split.
  - intros [He|(t & [->|(i & Hi & ->)] & Hdue & He)]; [by left|..].
    + right. left. split; [done|]. by apply list_elem_of_singleton in He.
    + right. right. by exists i.
  - intros [He|[[Hdue ->]|(i & Hi & Hdue & He)]]; [by left|..].
    + right. eexists. split; [by left|]. split; [done|].
      by apply list_elem_of_singleton.
    + right. eexists. split; [right; by exists i|]. by split.
Qed.

(** C2, as amended: when the screen unmounts at a time [u] before
    [FADE_IN_DURATION], no scheduled phase has run and the three timers of
    the mount are still pending; the unmount cancels none of them.  By a
    later time [until] the rise of icon and title has been started at
    [FADE_IN_DURATION] if that time has come, and the fade of the trailing
    panel at its usual time if that has come; nothing else is started.  In
    particular no value of a feature is ever touched: the flip of the flag
    is ignored and registers no feature timer. *)
Theorem unmount_cancels_nothing fuel u until :
  (u < F)%N → (u ≤ until)%N → 4 ≤ fuel →
  ∃ w1 w2,
    run cfg n fuel u (mount cfg n) = Some w1 ∧
    started w1
    = [mkStarted 0 iconTitleOpacity F; mkStarted 0 iconTitleScale F] ∧
    timers (unmount w1) = timers (mount cfg n) ∧
    run cfg n fuel until (unmount w1) = Some w2 ∧
    started w2
    = [mkStarted 0 iconTitleOpacity F; mkStarted 0 iconTitleScale F]
      ++ (if bool_decide (F ≤ until)%N
          then [mkStarted F iconTitleTranslateY (MOVE_UP_DURATION cfg)]
          else [])
      ++ (if bool_decide (blurTime cfg n ≤ until)%N
          then [mkStarted (blurTime cfg n) blurViewOpacity
                  (FEATURE_DURATION cfg)]
          else []) ∧
    ∀ e i, e ∈ started w2 → value e ≠ opacity i ∧ value e ≠ translateY i.
Proof.
  intros Hu _ Hfuel. destruct fuel as [|[|[|[|fuel]]]]; [lia..|].
  rewrite mount_eq.
  set (pending := [mkTimer F moveUp; mkTimer (triggerTime cfg) triggerFeatures;
                   mkTimer (blurTime cfg n) showBlurView]).
  set (log := [mkStarted 0 iconTitleOpacity F; mkStarted 0 iconTitleScale F]).
  exists (mkWorld u pending true false log).
  assert (∃ w2,
    run cfg n (S (S (S (S fuel)))) until (mkWorld u pending false false log)
    = Some w2 ∧
    started w2
    = log
      ++ (if bool_decide (F ≤ until)%N
          then [mkStarted F iconTitleTranslateY (MOVE_UP_DURATION cfg)]
          else [])
      ++ (if bool_decide (blurTime cfg n ≤ until)%N
          then [mkStarted (blurTime cfg n) blurViewOpacity
                  (FEATURE_DURATION cfg)]
          else [])) as (w2 & Hrun & Hlog).
  { assert (F ≤ triggerTime cfg)%N by (unfold triggerTime; lia).
    assert (triggerTime cfg ≤ blurTime cfg n)%N by (unfold blurTime; lia).
    unfold pending.
    cbn [run timers due callback clock mounted shouldAnimateFeatures started].
    case_bool_decide as H1.
    - cbn [fire timing_start clock timers mounted shouldAnimateFeatures
           started due callback].
      case_bool_decide as H2.
      + cbn [fire setShouldAnimateFeatures clock timers mounted
             shouldAnimateFeatures started due callback].
        case_bool_decide as H3; eexists; (split; [reflexivity|]);
          cbn [started fire timing_start clock]; by rewrite ?app_nil_r.
      + eexists. split; [reflexivity|]. cbn [started].
        by rewrite bool_decide_eq_false_2, app_nil_r by lia.
    - eexists. split; [reflexivity|]. cbn [started].
      by rewrite bool_decide_eq_false_2, app_nil_r by lia. }
  exists w2. split; [|split; [|split; [|split; [|split]]]]; try done.
  - cbn [run timers due]. unfold pending.
    by rewrite bool_decide_eq_false_2 by (simpl; lia).
  - intros e i. rewrite Hlog, !elem_of_app. unfold log.
    intros [He|[He|He]]; repeat case_bool_decide;
      repeat (apply elem_of_cons in He as [->|He]);
      try (by apply elem_of_nil in He); by split.
Qed.
End Schedule.


Example schedule_of_three_features :
  started <$> run ANIMATION_CONFIG 3 7 5000 (mount ANIMATION_CONFIG 3)
  = Some [mkStarted 0 iconTitleOpacity 600; mkStarted 0 iconTitleScale 600;
          mkStarted 600 iconTitleTranslateY 800;
          mkStarted 1600 (opacity 0) 750; mkStarted 1600 (translateY 0) 750;
          mkStarted 2020 (opacity 1) 750; mkStarted 2020 (translateY 1) 750;
          mkStarted 2440 (opacity 2) 750; mkStarted 2440 (translateY 2) 750;
          mkStarted 3060 blurViewOpacity 750].
Proof. vm_compute. reflexivity. Qed.

(** C4: the feature at index [i] starts its fade and its rise at
    [FADE_IN_DURATION + MOVE_UP_DURATION + BUFFER_DELAY + i * STAGGER_DELAY]
    after the mount, and at no other time; the trailing panel starts at
    that of index [features.length] plus [BUFFER_DELAY].  With the constants
    of the source and three features, index 2 starts at 2440 and the panel
    at 3060. *)
Theorem feature_start_times :
  (∀ cfg n i until fuel,
     i < n → (featureTime cfg i ≤ until)%N → n + 4 ≤ fuel →
     ∃ w, run cfg n fuel until (mount cfg n) = Some w ∧
       mkStarted (featureTime cfg i) (opacity i) (FEATURE_DURATION cfg)
         ∈ started w ∧
       mkStarted (featureTime cfg i) (translateY i) (FEATURE_DURATION cfg)
         ∈ started w ∧
       (∀ e, e ∈ started w →
             value e = opacity i ∨ value e = translateY i →
             at_ e = featureTime cfg i) ∧
       (∀ e, e ∈ started w → value e = blurViewOpacity →
             at_ e = blurTime cfg n) ∧
       ((blurTime cfg n ≤ until)%N →
        mkStarted (blurTime cfg n) blurViewOpacity (FEATURE_DURATION cfg)
          ∈ started w)) ∧
  (∀ i, featureTime ANIMATION_CONFIG i
        = (600 + 800 + 200 + N.of_nat i * 420)%N) ∧
  featureTime ANIMATION_CONFIG 2 = 2440%N ∧
  blurTime ANIMATION_CONFIG 3 = (600 + 800 + 200 + 3 * 420 + 200)%N ∧
  blurTime ANIMATION_CONFIG 3 = 3060%N ∧
  started <$> run ANIMATION_CONFIG 3 7 3060 (mount ANIMATION_CONFIG 3)
  = Some [mkStarted 0 iconTitleOpacity 600; mkStarted 0 iconTitleScale 600;
          mkStarted 600 iconTitleTranslateY 800;
          mkStarted 1600 (opacity 0) 750; mkStarted 1600 (translateY 0) 750;
          mkStarted 2020 (opacity 1) 750; mkStarted 2020 (translateY 1) 750;
          mkStarted 2440 (opacity 2) 750; mkStarted 2440 (translateY 2) 750;
          mkStarted 3060 blurViewOpacity 750].
Proof.
  split; [|repeat split; done].
  intros cfg n i until fuel Hi Huntil Hfuel.
  assert (triggerTime cfg ≤ until)%N as Htrigger
    by (unfold featureTime in Huntil; lia).
  destruct (run_mount_started cfg n fuel until Htrigger Hfuel)
    as (w & Hrun & Hlog).
  exists w. split; [done|]. split; [|split; [|split; [|split]]].
  - apply Hlog. right. right. exists i. repeat split; try done. by left.
  - apply Hlog. right. right. exists i. repeat split; try done.
    right. by left.
  - intros e [He|[[_ ->]|(j & Hj & _ & He)]]%Hlog Hvalue.
    + repeat (apply elem_of_cons in He as [->|He]);
        try (by apply elem_of_nil in He); by destruct Hvalue.
    + by destruct Hvalue.
    + simpl in He.
      repeat (apply elem_of_cons in He as [->|He]);
        try (by apply elem_of_nil in He);
        simpl in *; destruct Hvalue as [Hv|Hv]; by simplify_eq.
  - intros e [He|[[_ ->]|(j & Hj & _ & He)]]%Hlog Hvalue; [|done|].
    + repeat (apply elem_of_cons in He as [->|He]);
        by try apply elem_of_nil in He.
    + simpl in He.
      repeat (apply elem_of_cons in He as [->|He]);
        by try apply elem_of_nil in He.
  - intros Hblur. apply Hlog. right. by left.
Qed.

Lemma feature_start_times_witness :
  ∃ w, run ANIMATION_CONFIG 3 7 5000 (mount ANIMATION_CONFIG 3) = Some w ∧
    mkStarted 2440 (opacity 2) 750 ∈ started w ∧
    mkStarted 2440 (translateY 2) 750 ∈ started w ∧
    (∀ e, e ∈ started w → value e = opacity 2 ∨ value e = translateY 2 →
          at_ e = 2440%N) ∧
    (∀ e, e ∈ started w → value e = blurViewOpacity → at_ e = 3060%N) ∧
    ((3060 ≤ 5000)%N → mkStarted 3060 blurViewOpacity 750 ∈ started w).
Proof.
  refine (proj1 feature_start_times ANIMATION_CONFIG 3 2 5000%N 7 _ _ _).
  - lia.
  - vm_compute. discriminate.
  - lia.
Defined.

(** C2 fails as stated: with the constants of the source and three
    features, the screen unmounts at time 100, before any timer has run;
    the timers are all still pending after the unmount, and at time 600 the
    rise of icon and title is started all the same. *)
Lemma unmount_late_write_counterexample :
  ∃ w1 w2 e,
    run ANIMATION_CONFIG 3 4 100 (mount ANIMATION_CONFIG 3) = Some w1 ∧
    started w1
    = [mkStarted 0 iconTitleOpacity 600; mkStarted 0 iconTitleScale 600] ∧
    length (timers (unmount w1)) = 3 ∧
    run ANIMATION_CONFIG 3 4 5000 (unmount w1) = Some w2 ∧
    e ∈ started w2 ∧ value e = iconTitleTranslateY ∧ (100 < at_ e)%N ∧
    mkStarted 3060 blurViewOpacity 750 ∈ started w2.
Proof.
  eexists _, _, (mkStarted 600 iconTitleTranslateY 800).
  split; [vm_compute; reflexivity|].
  split; [reflexivity|]. split; [reflexivity|].
  split; [vm_compute; reflexivity|].
  split; [apply (bool_decide_unpack _); vm_compute; exact I|].
  split; [reflexivity|]. split; [reflexivity|].
  apply (bool_decide_unpack _); vm_compute; exact I.
Qed.

Lemma unmount_cancels_nothing_witness :
  ∃ w1 w2,
    run ANIMATION_CONFIG 3 4 100 (mount ANIMATION_CONFIG 3) = Some w1 ∧
    started w1
    = [mkStarted 0 iconTitleOpacity 600; mkStarted 0 iconTitleScale 600] ∧
    timers (unmount w1) = timers (mount ANIMATION_CONFIG 3) ∧
    run ANIMATION_CONFIG 3 4 5000 (unmount w1) = Some w2 ∧
    started w2
    = [mkStarted 0 iconTitleOpacity 600; mkStarted 0 iconTitleScale 600]
      ++ (if bool_decide (600 ≤ 5000)%N
          then [mkStarted 600 iconTitleTranslateY 800] else [])
      ++ (if bool_decide (blurTime ANIMATION_CONFIG 3 ≤ 5000)%N
          then [mkStarted (blurTime ANIMATION_CONFIG 3) blurViewOpacity 750]
          else []) ∧
    ∀ e i, e ∈ started w2 → value e ≠ opacity i ∧ value e ≠ translateY i.
Proof.
  refine (unmount_cancels_nothing ANIMATION_CONFIG 3 4 100%N 5000%N _ _ _).
  - vm_compute. reflexivity.
  - vm_compute. discriminate.
  - lia.
Defined.

(** * Further properties of the segmenter *)

Section MoreSegmenterProperties.
Context {A : Type} `{EqDecision A}.
Implicit Types description : list A.
Implicit Types link : Link A.
Implicit Types links : list (Link A).

(** X1: the call returns exactly when no [sectionText] is empty, and then
    [length description + 1] rounds are enough for each of its loops;
    otherwise no number of rounds is. *)
Theorem returns_iff_no_empty_sectionText description links :
  (Forall nonEmptyText links ↔
   ∃ s, parseTextWithLinks (S (length description)) description links
        = Some s) ∧
  (Forall nonEmptyText links ↔ ∃ s, returns description links s) ∧
  (¬ Forall nonEmptyText links ↔ diverges description links).
Proof.
  split; [|split].
  - split; [apply parseTextWithLinks_total|].
    intros [s Hs]. apply parseTextWithLinks_returns, returns_iff in Hs.
    destruct Hs as [[-> _]|(_ & Hall & _)]; [constructor | done].
  - split; [apply returns_total|].
    intros [s [[-> _]|(_ & Hall & _)]%returns_iff]; [constructor | done].
  - symmetry. apply diverges_iff.
Qed.

Lemma slice_is_take description j :
  j ≤ length description → slice description 0 j = take j description.
Proof.
  intros Hj. unfold slice. simpl.
  replace (j `min` length description) with j by lia.
  by rewrite Nat.sub_0_r.
Qed.

Lemma slice_from_is_drop description i :
  i ≤ length description → slice_from description i = drop i description.
Proof.
  intros Hi. unfold slice_from, slice.
  rewrite Nat.min_id. replace (i `min` length description) with i by lia.
  apply take_ge. rewrite length_drop. lia.
Qed.

Lemma elem_of_emitted description cur (l : list (LinkPosition A)) seg :
  seg ∈ emitted description cur l →
  (∃ x, x ∈ l ∧ seg = segmentOfPosition x) ∨
  (∃ i j, seg = text_segment (slice description i j)).
Proof.
  revert cur. induction l as [|x l IH]; intros cur; simpl.
  - by intros ?%elem_of_nil.
  - rewrite elem_of_app, elem_of_cons.
    intros [Hgap|[->|Hrest]].
    + case_bool_decide; [|by apply elem_of_nil in Hgap].
      apply list_elem_of_singleton in Hgap as ->. right. eauto.
    + left. exists x. split; [by left | done].
    + destruct (IH _ Hrest) as [(y & Hy & ->)|Htext]; [|by right].
      left. exists y. split; [by right | done].
Qed.

Lemma segment_cases description links s seg :
  returns description links s → seg ∈ s →
  (type seg = type_link ∧
   ∃ link i, link ∈ links ∧ occursAt description (sectionText link) i ∧
             seg = segmentOfLink link ∧
             seg_url seg = Some (sectionUrl link)) ∨
  (type seg = type_text ∧ seg_url seg = None ∧
   ∃ i j, content seg = slice description i j).
Proof.
  intros [[-> ->]|(_ & Hne & ->)]%returns_iff Hseg.
  - apply list_elem_of_singleton in Hseg as ->. right.
    repeat split. exists 0, (length description).
    simpl. by rewrite slice_is_take, take_ge.
  - rewrite buildSegments_emitted in Hseg.
    apply elem_of_app in Hseg as [Hseg|Hseg].
    + apply elem_of_emitted in Hseg as [(x & Hx & ->)|(i & j & ->)].
      * rewrite sortByStart_perm in Hx.
        apply elem_of_allLocated in Hx as (link & Hlink & Hx).
        apply elem_of_located in Hx as (i & -> & Hocc & _).
        left. split; [done|]. by exists link, i.
      * right. repeat split. by exists i, j.
    + unfold remainder in Hseg.
      case_bool_decide; [|by apply elem_of_nil in Hseg].
      apply list_elem_of_singleton in Hseg as ->. right. repeat split.
      eexists _, _. reflexivity.
Qed.

(** X2: a returned segment is either the link segment of a declared link
    whose [sectionText] occurs in the description, with that link's
    [sectionUrl] as its [url], or a text segment without [url] whose
    content is a slice of the description. *)
Theorem segments_are_links_or_slices description links s seg :
  returns description links s → seg ∈ s →
  (type seg = type_link ∧
   ∃ link i, link ∈ links ∧ occursAt description (sectionText link) i ∧
             seg = segmentOfLink link ∧
             seg_url seg = Some (sectionUrl link)) ∨
  (type seg = type_text ∧ seg_url seg = None ∧
   ∃ i j, content seg = slice description i j).
Proof. apply segment_cases. Qed.




Lemma emitted_textThenLink description cur (l : list (LinkPosition A))
    (tail : list (Segment A)) :
  textThenLink tail → textThenLink (emitted description cur l ++ tail).
Proof.
  intros Htail. revert cur.
  induction l as [|x l IH]; intros cur; [done|].
  specialize (IH (end_ x)). simpl.
  case_bool_decide; simpl; repeat split; try done.
  all: by destruct (emitted description (end_ x) l ++ tail).
Qed.

Lemma textThenLink_adjacent (s pre post : list (Segment A)) a b :
  textThenLink s → s = pre ++ a :: b :: post →
  type a = type_text → type b = type_link.
Proof.
  intros Hs ->. induction pre as [|c pre IH].
  - by destruct Hs as [Hab _].
  - apply IH. by destruct Hs as [_ Hrest].
Qed.

(** X4: no two text segments are adjacent in the output: a text segment
    is the last segment or is followed by a link segment. *)
Theorem no_adjacent_text_segments description links s pre post a b :
  returns description links s → s = pre ++ a :: b :: post →
  type a = type_text → type b = type_link.
Proof.
  intros Hret. apply textThenLink_adjacent.
  apply returns_iff in Hret as [[-> ->]|(_ & Hne & ->)]; [done|].
  rewrite buildSegments_emitted. apply emitted_textThenLink.
  unfold remainder. by case_bool_decide.
Qed.

Lemma single_occurrence description link (p : nat) s :
  nonEmptyText link →
  occurrences description (sectionText link) = [p] →
  returns description [link] s ↔
  s = (if bool_decide (0 < p)
       then [text_segment (take p description)] else [])
      ++ [segmentOfLink link]
      ++ (if bool_decide (p + length (sectionText link) < length description)
          then [text_segment
                  (drop (p + length (sectionText link)) description)]
          else []).
Proof.
  intros Hne Hocc.
  assert (p ∈ occurrences description (sectionText link)) as Hp
    by (rewrite Hocc; by left).
  apply elem_of_occurrences in Hp as [Hp _].
  destruct (occursAt_bound _ _ _ Hp Hne) as [Hend Hlt].
  rewrite returns_iff, allLocated_cons. unfold located. rewrite Hocc.
  simpl. rewrite buildSegments_emitted. simpl. unfold remainder.
  rewrite slice_is_take, slice_from_is_drop by lia.
  split.
  - intros [[? _]|(_ & _ & ->)]; [done|].
    by repeat case_bool_decide.
  - intros ->. right. split; [done|]. split; [by repeat constructor|].
    by repeat case_bool_decide.
Qed.

(** X5: when the [sectionText] of a single link occurs exactly once, at
    index [p], the output is the text before [p] if [p] is not 0, the
    link segment, and the text after the occurrence if any is left. *)
Theorem single_occurrence_segments description link (p : nat) s :
  nonEmptyText link →
  occurrences description (sectionText link) = [p] →
  returns description [link] s ↔
  s = (if bool_decide (0 < p)
       then [text_segment (take p description)] else [])
      ++ [segmentOfLink link]
      ++ (if bool_decide (p + length (sectionText link) < length description)
          then [text_segment
                  (drop (p + length (sectionText link)) description)]
          else []).
Proof. apply single_occurrence. Qed.

Lemma occurrences_self description :
  description ≠ [] → occurrences description description = [0].
Proof.
  intros Hne. unfold occurrences. simpl.
  rewrite filter_cons_True.
  - f_equal. apply filter_seq_none. intros j Hj Hocc.
    destruct (occursAt_bound _ _ _ Hocc Hne). lia.
  - unfold occursAt, candidate. simpl. by apply take_ge.
Qed.

(** X6: a link whose [sectionText] is the whole, non-empty description
    gives one link segment and no text segment. *)
Theorem whole_description_link (description url : list A) s :
  description ≠ [] →
  returns description [mkLink description url] s ↔
  s = [link_segment description url].
Proof.
  intros Hne.
  rewrite (single_occurrence description (mkLink description url) 0)
    by (done || by apply occurrences_self).
  simpl. by rewrite bool_decide_eq_false_2 by lia.
Qed.


Lemma allLocated_occurring description links :
  allLocated description
    (filter (λ link, occurrences description (sectionText link) ≠ []) links)
  = allLocated description links.
Proof.
  induction links as [|link links IH]; [done|].
  rewrite filter_cons. case_decide as Hocc.
  - by rewrite !allLocated_cons, IH.
  - rewrite allLocated_cons, IH. unfold located. by rewrite Hocc.
Qed.

(** X8: links whose [sectionText] occurs nowhere are ignored: for a
    non-empty description and links without an empty [sectionText], the
    output is that of the links that do occur, even when none is left. *)
Theorem absent_links_ignored description links s :
  description ≠ [] → Forall nonEmptyText links →
  returns description links s ↔
  returns description
    (filter (λ link, occurrences description (sectionText link) ≠ []) links)
    s.
Proof.
  intros Hdesc Hne.
  set (occurring :=
    filter (λ link, occurrences description (sectionText link) ≠ []) links).
  assert (Forall nonEmptyText occurring) as Hne'.
  { apply Forall_forall. intros link [_ Hlink]%list_elem_of_filter.
    rewrite Forall_forall in Hne. by apply Hne. }
  assert (buildSegments description [] = [text_segment description])
    as Hnone.
  { rewrite buildSegments_emitted. simpl. unfold remainder.
    rewrite bool_decide_eq_true_2, slice_from_is_drop by
      (destruct description; simpl; done || lia).
    done. }
  rewrite !returns_iff. fold occurring.
  rewrite <- (allLocated_occurring description links). fold occurring.
  destruct links as [|link links]; [done|].
  destruct occurring as [|link' occurring'] eqn:Hocc.
  - change (sortByStart (allLocated description []))
      with (@nil (LinkPosition A)).
    rewrite Hnone. split.
    + intros [[? _]|(_ & _ & ->)]; [done|]. by left.
    + intros [[_ ->]|(? & _)]; [|done]. right. by repeat split.
  - split.
    + intros [[? _]|(_ & _ & ->)]; [done|]. right. by repeat split.
    + intros [[? _]|(_ & _ & ->)]; [done|]. right. by repeat split.
Qed.
End MoreSegmenterProperties.

(** * Part III, proofs: styles and the rendering of a description *)

Section RichTextProperties.
Context {A : Type} `{EqDecision A} {V : Type} (str : string → V) (num : N → V).
Implicit Types description : list A.
Implicit Types links : list (Link A).
Implicit Types style : gmap string V.



Lemma RichText_Some fuel description links (tintColor : V) style outer
    children :
  RichText num fuel description links tintColor style
  = Some (outer, children) →
  ∃ s, returns description links s ∧ outer = style ∧
       children = imap (renderSegment num style tintColor) s.
Proof.
  unfold RichText.
  destruct (parseTextWithLinks _ _ _) as [s|] eqn:Hparse; [|done].
  intros [= <- <-]. exists s. split; [by exists fuel | done].
Qed.

(** The children of a rendered description, one by one. *)
Lemma RichText_child fuel description links (tintColor : V) style outer
    children c :
  RichText num fuel description links tintColor style
  = Some (outer, children) →
  c ∈ children →
  (elementStyle c = None ∧ onPress c = None ∧
   ∃ i j, elementText c = slice description i j) ∨
  (∃ link, link ∈ links ∧ elementText c = sectionText link ∧
           elementStyle c = Some (linkStyle num style tintColor) ∧
           onPress c = Some (Some (sectionUrl link))).
Proof.
  intros (s & Hret & _ & ->)%RichText_Some.
  intros (i & seg & -> & Hseg)%elem_of_lookup_imap.
  apply list_elem_of_lookup_2 in Hseg.
  destruct (segment_cases description links s seg Hret Hseg)
    as [(Htype & link & p & Hlink & _ & -> & _)
       |(Htype & Hurl & p & q & Hcontent)].
  - right. exists link. by repeat split.
  - left. unfold renderSegment. rewrite Htype. simpl.
    repeat split. by exists p, q.
Qed.


(** X10: a press on a rendered child does nothing when the child is plain;
    on a link child it calls [Linking.openURL] once, with the [sectionUrl]
    of a declared link whose [sectionText] is the text pressed, and when
    that call fails it shows the alert "Could not open link" and nothing
    else. *)
Theorem press_opens_declared_url fuel description links (tintColor : V)
    style outer children (openURL : option (list A) → bool) c :
  RichText num fuel description links tintColor style
  = Some (outer, children) →
  c ∈ children →
  (onPress c = None ∧ press openURL c = []) ∨
  (∃ link, link ∈ links ∧ elementText c = sectionText link ∧
     press openURL c
     = OpenURL (Some (sectionUrl link))
       :: (if openURL (Some (sectionUrl link)) then []
           else [Alert "Could not open link"])).
Proof.
  intros Hrender Hc.
  destruct (RichText_child _ _ _ _ _ _ _ _ Hrender Hc)
    as [(_ & Hpress & _)|(link & Hlink & Htext & _ & Hpress)].
  - left. unfold press. by rewrite Hpress.
  - right. exists link. unfold press, handleLinkPress. by rewrite Hpress.
Qed.

Lemma linkStyle_lookup style (tintColor : V) k :
  linkStyle num style tintColor !! k
  = if decide (k = "fontWeight") then Some (num 700)
    else if decide (k = "color") then Some tintColor
    else style !! k.
Proof.
  unfold linkStyle. repeat case_decide; subst.
  - apply lookup_insert_eq.
  - rewrite lookup_insert_ne by done. apply lookup_insert_eq.
  - by rewrite !lookup_insert_ne.
Qed.

Lemma Feature_memoizedDescriptionStyle_lookup
    (descriptionStyle : gmap string V) k :
  Feature_memoizedDescriptionStyle str num descriptionStyle !! k
  = match descriptionStyle !! k with
    | Some v => Some v
    | None =>
        if decide (k = "color") then Some (str "gray")
        else if decide (k = "fontSize") then Some (num 18)
        else if decide (k = "fontWeight") then Some (num 400)
        else if decide (k = "lineHeight") then Some (num 24)
        else None
    end.
Proof.
  unfold Feature_memoizedDescriptionStyle. rewrite lookup_union.
  destruct (descriptionStyle !! k) as [v|]; [by rewrite union_Some_l|].
  rewrite (left_id_L None _).
  repeat case_decide; subst;
    repeat (rewrite lookup_insert_ne by done);
    by rewrite ?lookup_insert_eq, ?lookup_empty.
Qed.

(** X11: in a [Feature], the text of the description takes every property
    given in [descriptionStyle] and the defaults gray, 18, 400 and 24 for
    those not given; a link in it has the same style except that its
    colour is always the tint and its weight always 700, whatever
    [descriptionStyle] says about these two. *)
Theorem Feature_link_style fuel description links (tintColor : V)
    (descriptionStyle : gmap string V) outer children c :
  Feature_RichText str num fuel description links tintColor descriptionStyle
  = Some (outer, children) →
  c ∈ children → onPress c ≠ None →
  (∀ k, outer !! k
        = match descriptionStyle !! k with
          | Some v => Some v
          | None =>
              if decide (k = "color") then Some (str "gray")
              else if decide (k = "fontSize") then Some (num 18)
              else if decide (k = "fontWeight") then Some (num 400)
              else if decide (k = "lineHeight") then Some (num 24)
              else None
          end) ∧
  ∃ st, elementStyle c = Some st ∧
    st !! "color" = Some tintColor ∧
    st !! "fontWeight" = Some (num 700) ∧
    st !! "fontSize" = Some (default (num 18) (descriptionStyle !! "fontSize")) ∧
    st !! "lineHeight"
    = Some (default (num 24) (descriptionStyle !! "lineHeight")) ∧
    ∀ k, k ≠ "color" → k ≠ "fontWeight" → st !! k = outer !! k.
Proof.
  unfold Feature_RichText. intros Hrender Hc Hpress.
  destruct (RichText_Some _ _ _ _ _ _ _ Hrender) as (s & _ & -> & _).
  split; [apply Feature_memoizedDescriptionStyle_lookup|].
  destruct (RichText_child _ _ _ _ _ _ _ _ Hrender Hc)
    as [(_ & Hnone & _)|(link & _ & _ & Hstyle & _)]; [done|].
  eexists. split; [exact Hstyle|].
  rewrite !linkStyle_lookup, !Feature_memoizedDescriptionStyle_lookup.
  repeat split; try done.
  - by destruct (descriptionStyle !! "fontSize").
  - by destruct (descriptionStyle !! "lineHeight").
  - intros k Hcolor Hweight. rewrite linkStyle_lookup.
    by rewrite !decide_False by done.
Qed.

(** X12: the title styles: every property given in [titleStyle] is used as
    given, and a property that is not given takes the default, white, 36,
    800 and centred for the screen title, white, 18 and 600 for the title
    of a feature; no other property appears. *)
Theorem title_styles_fall_back (titleStyle : gmap string V) k :
  OnboardingView_memoizedTitleStyle str num titleStyle !! k
  = match titleStyle !! k with
    | Some v => Some v
    | None =>
        if decide (k = "color") then Some (str "white")
        else if decide (k = "textAlign") then Some (str "center")
        else if decide (k = "fontSize") then Some (num 36)
        else if decide (k = "fontWeight") then Some (num 800)
        else None
    end ∧
  Feature_memoizedTitleStyle str num titleStyle !! k
  = match titleStyle !! k with
    | Some v => Some v
    | None =>
        if decide (k = "color") then Some (str "white")
        else if decide (k = "fontSize") then Some (num 18)
        else if decide (k = "fontWeight") then Some (num 600)
        else None
    end.
Proof.
  unfold OnboardingView_memoizedTitleStyle, Feature_memoizedTitleStyle.
  rewrite !lookup_union.
  destruct (titleStyle !! k) as [v|]; [by rewrite !union_Some_l|].
  rewrite !(left_id_L None _).
  split; repeat case_decide; subst;
    repeat (rewrite lookup_insert_ne by done);
    by rewrite ?lookup_insert_eq, ?lookup_empty.
Qed.
End RichTextProperties.

(** * Part II, further properties of the schedule *)

Section MoreSchedule.
Variable cfg : AnimationConfig.
Variable n : nat.

Local Notation "'F'" := (FADE_IN_DURATION cfg).

Lemma featureQueue_perm :
  featureQueue cfg n
  ≡ₚ mkTimer (blurTime cfg n) showBlurView
     :: (featureTimer cfg (triggerTime cfg) <$> seq 0 n).
Proof. apply (foldl_enqueue_perm _ _ [_]). Qed.

Lemma featureQueue_sorted : StronglySorted dueLe (featureQueue cfg n).
Proof. apply foldl_enqueue_sorted. repeat constructor. Qed.

Lemma featureQueue_registersNothing :
  Forall registersNothing (featureQueue cfg n).
Proof.
  rewrite featureQueue_perm. constructor; [done|].
  apply Forall_fmap, Forall_forall. by intros i _.
Qed.

Lemma featureQueue_length : length (featureQueue cfg n) = S n.
Proof.
  rewrite featureQueue_perm. simpl. by rewrite length_fmap, length_seq.
Qed.

Lemma featureQueue_due t :
  t ∈ featureQueue cfg n →
  (triggerTime cfg ≤ due t ∧ due t ≤ blurTime cfg n)%N.
Proof.
  rewrite (elem_of_feature_timers cfg n _ _ featureQueue_perm).
  intros [->|(i & Hi & ->)]; unfold blurTime, featureTime; simpl; nia.
Qed.

(** The state of the mounted screen at a time from the flip of the flag
    on. *)
Lemma run_mount_flipped fuel until :
  (triggerTime cfg ≤ until)%N → n + 4 ≤ fuel →
  run cfg n fuel until (mount cfg n)
  = Some (mkWorld until
            (filter (λ t, until < due t)%N (featureQueue cfg n)) true true
            ([mkStarted 0 iconTitleOpacity F; mkStarted 0 iconTitleScale F;
              mkStarted F iconTitleTranslateY (MOVE_UP_DURATION cfg)]
             ++ firedBy cfg until (featureQueue cfg n))).
Proof.
  intros Huntil Hfuel.
  destruct fuel as [|[|fuel]]; [lia..|].
  rewrite mount_eq. unfold triggerTime in Huntil.
  cbn [run timers due callback].
  rewrite bool_decide_eq_true_2 by lia.
  cbn [fire timing_start clock timers mounted shouldAnimateFeatures started
       due callback app].
  rewrite bool_decide_eq_true_2 by (unfold triggerTime; lia).
  cbn [fire setShouldAnimateFeatures mounted shouldAnimateFeatures clock
       timers started due callback].
  rewrite bool_decide_eq_false_2 by done.
  rewrite Feature_effects_true. fold (featureQueue cfg n).
  rewrite run_registersNothing; [done|..].
  - apply featureQueue_registersNothing.
  - apply featureQueue_sorted.
  - rewrite featureQueue_length. lia.
Qed.

(** The state of the mounted screen at a time before the flip. *)
Lemma run_mount_early fuel until :
  (until < triggerTime cfg)%N → 2 ≤ fuel →
  run cfg n fuel until (mount cfg n)
  = Some (mkWorld until
            ((if bool_decide (F ≤ until)%N then [] else [mkTimer F moveUp])
             ++ [mkTimer (triggerTime cfg) triggerFeatures;
                 mkTimer (blurTime cfg n) showBlurView])
            true false
            ([mkStarted 0 iconTitleOpacity F; mkStarted 0 iconTitleScale F]
             ++ if bool_decide (F ≤ until)%N
                then [mkStarted F iconTitleTranslateY (MOVE_UP_DURATION cfg)]
                else [])).
Proof.
  intros Huntil Hfuel.
  destruct fuel as [|[|fuel]]; [lia..|].
  rewrite mount_eq. cbn [run timers due callback].
  case_bool_decide as HF; [|done].
  cbn [fire timing_start clock timers mounted shouldAnimateFeatures started
       due callback app].
  by rewrite bool_decide_eq_false_2 by lia.
Qed.

Lemma startedBy_at t f e : e ∈ startedBy cfg t f → at_ e = t.
Proof.
  destruct f; simpl; intros He;
    repeat (apply elem_of_cons in He as [->|He]);
    by try apply elem_of_nil in He.
Qed.

Lemma elem_of_firedBy e until (q : list Timer) :
  e ∈ firedBy cfg until q ↔
  ∃ t, t ∈ q ∧ (due t ≤ until)%N ∧ e ∈ startedBy cfg (due t) (callback t).
Proof. apply elem_of_fired. Qed.

Lemma firedBy_chronological until (q : list Timer) :
  StronglySorted dueLe q → chronological (firedBy cfg until q).
Proof.
  unfold chronological, firedBy.
  induction 1 as [|t q Hsorted IH Ht]; [constructor|].
  rewrite filter_cons. case_decide as Hdue; [|done].
  rewrite bind_cons. apply StronglySorted_app. split; [|split; [|done]].
  - intros e1 e2 He1 He2. apply startedBy_at in He1 as ->.
    apply (elem_of_firedBy e2 until q) in He2 as (t2 & Ht2 & _ & He2).
    apply startedBy_at in He2 as ->.
    rewrite Forall_forall in Ht. by apply Ht.
  - pose proof (startedBy_at (due t) (callback t)) as Hat.
    induction (startedBy cfg (due t) (callback t)) as [|e l IHl];
      [constructor|].
    constructor.
    + apply IHl. intros e' He'. apply Hat. by right.
    + apply Forall_forall. intros e' He'.
      rewrite (Hat e) by (by left). rewrite (Hat e') by (by right). lia.
Qed.

Lemma filter_all {B} (P : B → Prop) `{∀ x, Decision (P x)} (l : list B) :
  Forall P l → filter P l = l.
Proof.
  induction 1 as [|x l Hx _ IH]; [done|].
  by rewrite filter_cons_True, IH.
Qed.

Lemma StronglySorted_filter {B} (R : relation B) (P : B → Prop)
    `{∀ x, Decision (P x)} (l : list B) :
  StronglySorted R l → StronglySorted R (filter P l).
Proof.
  induction 1 as [|x l Hsorted IH Hx]; [constructor|].
  rewrite filter_cons. case_decide; [|done].
  constructor; [done|]. apply Forall_forall.
  intros y [_ Hy]%list_elem_of_filter.
  rewrite Forall_forall in Hx. by apply Hx.
Qed.

(** Passing time in two steps fires what passing it in one step fires. *)
Lemma firedBy_split u until (q : list Timer) :
  (u ≤ until)%N → StronglySorted dueLe q →
  firedBy cfg u q ++ firedBy cfg until (filter (λ t, u < due t)%N q)
  = firedBy cfg until q ∧
  filter (λ t, until < due t)%N (filter (λ t, u < due t)%N q)
  = filter (λ t, until < due t)%N q.
Proof.
  intros Hu. unfold firedBy.
  induction 1 as [|t q Hsorted [IH1 IH2] Ht]; [done|].
  rewrite !(filter_cons _ t).
  destruct (decide (due t ≤ u)%N) as [Hle|Hgt].
  - rewrite (decide_False (P:=(u < due t)%N)) by lia.
    rewrite (decide_True (P:=(due t ≤ until)%N)) by lia.
    rewrite (decide_False (P:=(until < due t)%N)) by lia.
    rewrite !bind_cons, <- app_assoc. by rewrite IH1, IH2.
  - assert (Forall (λ x, u < due x)%N q) as Hlater.
    { eapply Forall_impl; [exact Ht|]. unfold dueLe. simpl. intros; lia. }
    rewrite (decide_True (P:=(u < due t)%N)) by lia.
    rewrite (filter_all _ q Hlater).
    rewrite (filter_none (λ x, due x ≤ u)%N q).
    + by rewrite !(filter_cons _ t).
    + eapply Forall_impl; [exact Hlater|]. simpl. intros; lia.
Qed.

Lemma feature_codes k m :
  (seq k m ≫= λ i, [4 + 2 * i; 5 + 2 * i]) = seq (4 + 2 * k) (2 * m).
Proof.
  revert k. induction m as [|m IH]; intros k; [done|].
  cbn [seq]. rewrite bind_cons, IH.
  replace (2 * S m) with (S (S (2 * m))) by lia. cbn [seq app].
  repeat (f_equal; try lia).
Qed.

(** All the animations of the schedule start different values. *)
Lemma schedule_values_NoDup :
  NoDup (value <$>
           ([mkStarted 0 iconTitleOpacity F; mkStarted 0 iconTitleScale F;
             mkStarted F iconTitleTranslateY (MOVE_UP_DURATION cfg)]
            ++ (featureQueue cfg n
                  ≫= λ t, startedBy cfg (due t) (callback t)))).
Proof.
  rewrite featureQueue_perm. apply (NoDup_fmap_1 valueCode).
  rewrite bind_cons, !fmap_app, fmap_cons. cbn [startedBy callback].
  assert (valueCode <$> (value <$>
            ((featureTimer cfg (triggerTime cfg) <$> seq 0 n)
               ≫= λ t, startedBy cfg (due t) (callback t)))
          = seq 4 (2 * n)) as ->.
  { pose proof (feature_codes 0 n) as Hcodes.
    change (4 + 2 * 0) with 4 in Hcodes. rewrite <- Hcodes. clear Hcodes.
    generalize (seq 0 n). intros l.
    induction l as [|i l IH]; [done|].
    rewrite fmap_cons, !bind_cons, !fmap_app, IH. done. }
  change (NoDup (seq 0 (4 + 2 * n))). apply NoDup_seq.
Qed.

(** The two shapes of the state of the mounted screen. *)
Lemma run_mount_cases fuel until :
  n + 4 ≤ fuel →
  ∃ w, run cfg n fuel until (mount cfg n) = Some w ∧
    (((until < triggerTime cfg)%N ∧
      shouldAnimateFeatures w = false ∧
      started w
      = [mkStarted 0 iconTitleOpacity F; mkStarted 0 iconTitleScale F]
        ++ (if bool_decide (F ≤ until)%N
            then [mkStarted F iconTitleTranslateY (MOVE_UP_DURATION cfg)]
            else [])) ∨
     ((triggerTime cfg ≤ until)%N ∧
      shouldAnimateFeatures w = true ∧
      timers w = filter (λ t, until < due t)%N (featureQueue cfg n) ∧
      started w
      = [mkStarted 0 iconTitleOpacity F; mkStarted 0 iconTitleScale F;
         mkStarted F iconTitleTranslateY (MOVE_UP_DURATION cfg)]
        ++ firedBy cfg until (featureQueue cfg n))).
Proof.
  intros Hfuel. destruct (decide (until < triggerTime cfg)%N) as [Hlt|Hge].
  - eexists. split; [apply run_mount_early; lia|]. left. by repeat split.
  - eexists. split; [apply run_mount_flipped; lia|]. right.
    repeat split. lia.
Qed.

(** X13: at any time the log of the mounted screen is in the order of
    time and holds no animation started later than that time; the
    callbacks due by then have all run within [features.length + 3]
    rounds. *)
Theorem log_chronological fuel until :
  n + 4 ≤ fuel →
  ∃ w, run cfg n fuel until (mount cfg n) = Some w ∧
       chronological (started w) ∧
       Forall (λ e, at_ e ≤ until)%N (started w).
Proof.
  intros Hfuel.
  destruct (run_mount_cases fuel until Hfuel)
    as (w & Hrun & [(Hlt & _ & Hlog)|(Hge & _ & _ & Hlog)]);
    exists w; (split; [done|]); rewrite Hlog.
  - unfold chronological. case_bool_decide; split;
      repeat constructor; simpl; lia.
  - assert (F ≤ triggerTime cfg)%N as HF by (unfold triggerTime; lia).
    split.
    + apply StronglySorted_app. split; [|split].
      * intros e1 e2 He1 (t & Ht & _ & He2)%elem_of_firedBy.
        apply startedBy_at in He2 as ->.
        apply featureQueue_due in Ht as [Ht _].
        repeat (apply elem_of_cons in He1 as [->|He1]);
          try (by apply elem_of_nil in He1); simpl; lia.
      * repeat constructor; simpl; lia.
      * apply firedBy_chronological, featureQueue_sorted.
    + apply Forall_app. split; [repeat constructor; simpl; lia|].
      apply Forall_forall.
      intros e (t & _ & Hdue & He)%elem_of_firedBy.
      by apply startedBy_at in He as ->.
Qed.

(** X14: no animated value is started twice: at any time the values in
    the log of the mounted screen are all different. *)
Theorem no_value_started_twice fuel until :
  n + 4 ≤ fuel →
  ∃ w, run cfg n fuel until (mount cfg n) = Some w ∧
       NoDup (value <$> started w).
Proof.
  intros Hfuel.
  destruct (run_mount_cases fuel until Hfuel)
    as (w & Hrun & [(Hlt & _ & Hlog)|(Hge & _ & _ & Hlog)]);
    exists w; (split; [done|]); rewrite Hlog.
  - case_bool_decide; simpl; by apply (bool_decide_unpack _).
  - eapply sublist_NoDup; [apply schedule_values_NoDup|].
    apply fmap_sublist, sublist_app; [done|].
    unfold firedBy. apply bind_sublist, sublist_filter.
Qed.

Lemma length_fired_all :
  length (featureQueue cfg n ≫= λ t, startedBy cfg (due t) (callback t))
  = 2 * n + 1.
Proof.
  rewrite featureQueue_perm, bind_cons, length_app.
  cbn [startedBy callback length].
  assert (∀ l : list nat,
    length ((featureTimer cfg (triggerTime cfg) <$> l)
              ≫= λ t, startedBy cfg (due t) (callback t))
    = 2 * length l) as Hl.
  { induction l as [|i l IH]; [done|].
    rewrite fmap_cons, bind_cons, length_app, IH. simpl. lia. }
  rewrite Hl, length_seq. lia.
Qed.

Lemma run_mount_completed fuel until :
  (blurTime cfg n ≤ until)%N → n + 4 ≤ fuel →
  ∃ w, run cfg n fuel until (mount cfg n) = Some w ∧
    timers w = [] ∧ shouldAnimateFeatures w = true ∧
    length (started w) = 2 * n + 4 ∧
    mkStarted (blurTime cfg n) blurViewOpacity (FEATURE_DURATION cfg)
      ∈ started w ∧
    ∀ i, i < n →
      mkStarted (featureTime cfg i) (opacity i) (FEATURE_DURATION cfg)
        ∈ started w ∧
      mkStarted (featureTime cfg i) (translateY i) (FEATURE_DURATION cfg)
        ∈ started w.
Proof.
  intros Huntil Hfuel.
  assert (triggerTime cfg ≤ until)%N as Htrigger
    by (unfold blurTime in Huntil; lia).
  assert (Forall (λ t, due t ≤ until)%N (featureQueue cfg n)) as Hall.
  { apply Forall_forall. intros t [_ Ht]%featureQueue_due. lia. }
  eexists. split; [by apply run_mount_flipped|].
  cbn [timers shouldAnimateFeatures started].
  split; [|split; [done|split; [|split]]].
  - apply filter_none. eapply Forall_impl; [exact Hall|]. simpl. intros; lia.
  - unfold firedBy. rewrite (filter_all _ _ Hall), length_app.
    rewrite length_fired_all. simpl. lia.
  - apply elem_of_app. right. apply elem_of_firedBy.
    exists (mkTimer (blurTime cfg n) showBlurView).
    split; [|split; [done | by left]].
    apply (elem_of_feature_timers cfg n _ _ featureQueue_perm). by left.
  - intros i Hi.
    assert (mkTimer (featureTime cfg i) (animateFeature i)
              ∈ featureQueue cfg n) as Hin.
    { apply (elem_of_feature_timers cfg n _ _ featureQueue_perm).
      right. by exists i. }
    pose proof Hin as Hdue. rewrite Forall_forall in Hall.
    apply Hall in Hdue.
    split; apply elem_of_app; right; apply elem_of_firedBy;
      eexists; (split; [exact Hin|]); (split; [exact Hdue|]).
    + by left.
    + right. by left.
Qed.

(** X15: the sequence completes: from the start time of the trailing panel
    on, no timer is pending, the flag is set, and exactly
    [2 * features.length + 4] animations have been started, among them the
    fade and the rise of every feature and the fade of the panel. *)
Theorem schedule_completes fuel until :
  (blurTime cfg n ≤ until)%N → n + 4 ≤ fuel →
  ∃ w, run cfg n fuel until (mount cfg n) = Some w ∧
    timers w = [] ∧ shouldAnimateFeatures w = true ∧
    length (started w) = 2 * n + 4 ∧
    mkStarted (blurTime cfg n) blurViewOpacity (FEATURE_DURATION cfg)
      ∈ started w ∧
    ∀ i, i < n →
      mkStarted (featureTime cfg i) (opacity i) (FEATURE_DURATION cfg)
        ∈ started w ∧
      mkStarted (featureTime cfg i) (translateY i) (FEATURE_DURATION cfg)
        ∈ started w.
Proof. apply run_mount_completed. Qed.

(** X16: the flag is unset before
    [FADE_IN_DURATION + MOVE_UP_DURATION + BUFFER_DELAY] and set from then
    on, whatever the number of features; before that time only the
    animations of icon and title have been started. *)
Theorem flag_flips_at_triggerTime fuel until :
  n + 4 ≤ fuel →
  ∃ w, run cfg n fuel until (mount cfg n) = Some w ∧
    shouldAnimateFeatures w
    = bool_decide (FADE_IN_DURATION cfg + MOVE_UP_DURATION cfg
                   + BUFFER_DELAY cfg ≤ until)%N ∧
    ((until < FADE_IN_DURATION cfg + MOVE_UP_DURATION cfg
              + BUFFER_DELAY cfg)%N →
     ∀ e, e ∈ started w →
          value e = iconTitleOpacity ∨ value e = iconTitleScale ∨
          value e = iconTitleTranslateY).
Proof.
  intros Hfuel.
  destruct (run_mount_cases fuel until Hfuel)
    as (w & Hrun & [(Hlt & Hflag & Hlog)|(Hge & Hflag & _ & _)]);
    exists w; (split; [done|]); unfold triggerTime in *.
  - split; [by rewrite bool_decide_eq_false_2 by lia|].
    intros _ e. rewrite Hlog. case_bool_decide; simpl; intros He;
      repeat (apply elem_of_cons in He as [->|He]);
      try (by apply elem_of_nil in He); simpl; auto.
  - split; [by rewrite bool_decide_eq_true_2|]. lia.
Qed.

(** The entries the log can hold once the flag has flipped. *)
Lemma started_cases fuel until :
  (triggerTime cfg ≤ until)%N → n + 4 ≤ fuel →
  ∃ w, run cfg n fuel until (mount cfg n) = Some w ∧
    ∀ e, e ∈ started w →
      e = mkStarted 0 iconTitleOpacity F ∨
      e = mkStarted 0 iconTitleScale F ∨
      e = mkStarted F iconTitleTranslateY (MOVE_UP_DURATION cfg) ∨
      e = mkStarted (blurTime cfg n) blurViewOpacity (FEATURE_DURATION cfg) ∨
      ∃ i, i < n ∧
        (e = mkStarted (featureTime cfg i) (opacity i) (FEATURE_DURATION cfg)
         ∨ e = mkStarted (featureTime cfg i) (translateY i)
                 (FEATURE_DURATION cfg)).
Proof.
  intros Huntil Hfuel.
  destruct (run_mount_started cfg n fuel until Huntil Hfuel)
    as (w & Hrun & Hlog).
  exists w. split; [done|].
  intros e [He|[[_ ->]|(i & Hi & _ & He)]]%Hlog.
  - repeat (apply elem_of_cons in He as [->|He]);
      try (by apply elem_of_nil in He); auto.
  - auto 6.
  - do 4 right. exists i. split; [done|]. simpl in He.
    repeat (apply elem_of_cons in He as [->|He]);
      try (by apply elem_of_nil in He); auto.
Qed.

(** X17: the phases follow one another.  The rise of icon and title starts
    exactly when their fade and zoom end; a feature starts no earlier than
    [BUFFER_DELAY] after that rise ends; the trailing panel starts no
    earlier than [STAGGER_DELAY + BUFFER_DELAY] after the start of any
    feature. *)
Theorem phases_follow_one_another fuel until :
  (triggerTime cfg ≤ until)%N → n + 4 ≤ fuel →
  ∃ w, run cfg n fuel until (mount cfg n) = Some w ∧
    ∀ e1 e2, e1 ∈ started w → e2 ∈ started w →
      ((value e1 = iconTitleOpacity ∨ value e1 = iconTitleScale) →
       value e2 = iconTitleTranslateY →
       at_ e2 = at_ e1 + duration e1)%N ∧
      (value e1 = iconTitleTranslateY →
       (∃ i, value e2 = opacity i ∨ value e2 = translateY i) →
       at_ e1 + duration e1 + BUFFER_DELAY cfg ≤ at_ e2)%N ∧
      ((∃ i, value e1 = opacity i ∨ value e1 = translateY i) →
       value e2 = blurViewOpacity →
       at_ e1 + STAGGER_DELAY cfg + BUFFER_DELAY cfg ≤ at_ e2)%N.
Proof.
  intros Huntil Hfuel.
  destruct (started_cases fuel until Huntil Hfuel) as (w & Hrun & Hcases).
  exists w. split; [done|].
  intros e1 e2 He1 He2.
  apply Hcases in He1 as [->|[->|[->|[->|(i1 & Hi1 & [->| ->])]]]];
    apply Hcases in He2 as [->|[->|[->|[->|(i2 & Hi2 & [->| ->])]]]];
    simpl; unfold featureTime, blurTime, triggerTime;
    (split; [|split]); try (intros [?|?]; done); try done;
    try (intros _ (? & [?|?]); done); try (intros (? & [?|?]); done);
    intros; nia.
Qed.

(** X18: with at least one feature, the trailing panel starts
    [STAGGER_DELAY + BUFFER_DELAY] after the last feature starts, so it
    starts before the animation of the last feature has ended exactly when
    [STAGGER_DELAY + BUFFER_DELAY < FEATURE_DURATION]. *)
Theorem panel_and_last_feature fuel until :
  0 < n → (blurTime cfg n ≤ until)%N → n + 4 ≤ fuel →
  ∃ w last panel,
    run cfg n fuel until (mount cfg n) = Some w ∧
    last ∈ started w ∧ panel ∈ started w ∧
    value last = opacity (n - 1) ∧ value panel = blurViewOpacity ∧
    (at_ panel = at_ last + STAGGER_DELAY cfg + BUFFER_DELAY cfg)%N ∧
    ((at_ panel < at_ last + duration last)%N ↔
     (STAGGER_DELAY cfg + BUFFER_DELAY cfg < FEATURE_DURATION cfg)%N).
Proof.
  intros Hn Huntil Hfuel.
  destruct (run_mount_completed fuel until Huntil Hfuel)
    as (w & Hrun & _ & _ & _ & Hpanel & Hfeatures).
  destruct (Hfeatures (n - 1)) as [Hlast _]; [lia|].
  eexists w, _, _. split; [done|]. split; [exact Hlast|].
  split; [exact Hpanel|]. simpl. unfold blurTime, featureTime.
  repeat split; try lia; intros; nia.
Qed.

(** X19: once the flag has flipped, an unmount changes nothing in what
    follows: the feature timers and the panel timer stay pending, and by
    any later time the log and the pending timers are those of a screen
    that was never unmounted.  In particular a feature whose turn comes
    after the unmount is started all the same. *)
Theorem unmount_after_flip_changes_nothing fuel u until :
  (triggerTime cfg ≤ u)%N → (u ≤ until)%N → n + 4 ≤ fuel →
  ∃ w1 w2 w,
    run cfg n fuel u (mount cfg n) = Some w1 ∧
    run cfg n fuel until (unmount w1) = Some w2 ∧
    run cfg n fuel until (mount cfg n) = Some w ∧
    mounted w2 = false ∧
    started w2 = started w ∧ timers w2 = timers w ∧
    ∀ i, i < n → (featureTime cfg i ≤ until)%N →
      mkStarted (featureTime cfg i) (opacity i) (FEATURE_DURATION cfg)
        ∈ started w2 ∧
      mkStarted (featureTime cfg i) (translateY i) (FEATURE_DURATION cfg)
        ∈ started w2.
Proof.
  intros Hu Huntil Hfuel.
  destruct (firedBy_split u until (featureQueue cfg n) Huntil
              featureQueue_sorted) as [Hfired Hpending].
  eexists _, _, _.
  split; [apply run_mount_flipped; lia|].
  split.
  { unfold unmount. cbn [clock timers shouldAnimateFeatures started].
    apply run_registersNothing.
    - apply Forall_forall. intros t [_ Ht]%list_elem_of_filter.
      pose proof featureQueue_registersNothing as Hall.
      rewrite Forall_forall in Hall. by apply Hall.
    - apply StronglySorted_filter, featureQueue_sorted.
    - pose proof (length_filter (λ t, u < due t)%N (featureQueue cfg n)).
      rewrite featureQueue_length in *. lia. }
  split; [apply run_mount_flipped; lia|].
  cbn [mounted started timers].
  split; [done|]. split; [|split; [done|]].
  - fold (firedBy cfg until (filter (λ t, u < due t)%N (featureQueue cfg n))).
    by rewrite <- app_assoc, Hfired.
  - intros i Hi Hdue.
    fold (firedBy cfg until (filter (λ t, u < due t)%N (featureQueue cfg n))).
    rewrite <- app_assoc, Hfired.
    assert (mkTimer (featureTime cfg i) (animateFeature i)
              ∈ featureQueue cfg n) as Hin.
    { apply (elem_of_feature_timers cfg n _ _ featureQueue_perm).
      right. by exists i. }
    split; apply elem_of_app; right; apply elem_of_firedBy;
      eexists; (split; [exact Hin|]); (split; [exact Hdue|]).
    + by left.
    + right. by left.
Qed.
End MoreSchedule.

(** * The further properties on concrete inputs *)

Lemma segments_are_links_or_slices_witness :
  let seg := link_segment (js "go") (js "u") in
  (type seg = type_link ∧
   ∃ link i, link ∈ [mkLink (js "go") (js "u")] ∧
             occursAt (js "go go go") (sectionText link) i ∧
             seg = segmentOfLink link ∧
             seg_url seg = Some (sectionUrl link)) ∨
  (type seg = type_text ∧ seg_url seg = None ∧
   ∃ i j, content seg = slice (js "go go go") i j).
Proof.
  refine (segments_are_links_or_slices (js "go go go")
            [mkLink (js "go") (js "u")] _ _ _ _).
  - exists 4. vm_compute. reflexivity.
  - by left.
Defined.


Lemma no_adjacent_text_segments_witness :
  type (link_segment (js "go") (js "u")) = type_link.
Proof.
  refine (no_adjacent_text_segments (js "go go go")
            [mkLink (js "go") (js "u")] _
            [link_segment (js "go") (js "u")]
            [text_segment (js " "); link_segment (js "go") (js "u")]
            (text_segment (js " ")) (link_segment (js "go") (js "u"))
            _ _ _).
  - exists 4. vm_compute. reflexivity.
  - reflexivity.
  - reflexivity.
Defined.

Lemma single_occurrence_segments_witness :
  returns (js "Read the docs") [mkLink (js "the") (js "u")]
    [text_segment (js "Read "); link_segment (js "the") (js "u");
     text_segment (js " docs")].
Proof.
  refine (proj2 (single_occurrence_segments (js "Read the docs")
                   (mkLink (js "the") (js "u")) 5 _ _ _) _).
  - unfold nonEmptyText. simpl. discriminate.
  - vm_compute. reflexivity.
  - reflexivity.
Defined.

Lemma whole_description_link_witness :
  returns (js "docs") [mkLink (js "docs") (js "u")]
    [link_segment (js "docs") (js "u")].
Proof.
  refine (proj2 (whole_description_link (js "docs") (js "u") _ _) _).
  - discriminate.
  - reflexivity.
Defined.


Lemma absent_links_ignored_witness :
  let description := js "Read the docs" in
  returns description
    [mkLink (js "site") (js "v"); mkLink (js "the docs") (js "u")]
    [text_segment (js "Read "); link_segment (js "the docs") (js "u")] ↔
  returns description
    (filter (λ link, occurrences description (sectionText link) ≠ [])
       [mkLink (js "site") (js "v"); mkLink (js "the docs") (js "u")])
    [text_segment (js "Read "); link_segment (js "the docs") (js "u")].
Proof.
  intros description.
  refine (absent_links_ignored description _ _ _ _).
  - discriminate.
  - concrete_nonEmpty.
Defined.


Lemma press_opens_declared_url_witness :
  let description := js "go go" in
  let links := [mkLink (js "go") (js "u")] in
  let c : TextElement Ascii.ascii N :=
    renderSegment (λ x : N, x) ∅ 7%N 0 (link_segment (js "go") (js "u")) in
  (onPress c = None ∧ press (λ _, false) c = []) ∨
  (∃ link, link ∈ links ∧ elementText c = sectionText link ∧
     press (λ _, false) c
     = OpenURL (Some (sectionUrl link))
       :: (if false then [] else [Alert "Could not open link"])).
Proof.
  intros description links c.
  refine (press_opens_declared_url (λ x : N, x) 3 description links 7%N ∅ ∅
            (imap (renderSegment (λ x : N, x) ∅ 7%N)
               [link_segment (js "go") (js "u"); text_segment (js " ");
                link_segment (js "go") (js "u")])
            (λ _, false) c _ _).
  - unfold RichText.
    assert (parseTextWithLinks 3 description links
            = Some [link_segment (js "go") (js "u"); text_segment (js " ");
                    link_segment (js "go") (js "u")]) as ->
      by (vm_compute; reflexivity).
    reflexivity.
  - by left.
Defined.

Lemma Feature_link_style_witness :
  let str : string → string + N := inl in
  let num : N → string + N := inr in
  let descriptionStyle : gmap string (string + N) :=
    {[ "color" := str "red" ]} in
  let outer := Feature_memoizedDescriptionStyle str num descriptionStyle in
  let c : TextElement Ascii.ascii (string + N) :=
    renderSegment num outer (str "blue") 0
      (link_segment (js "go") (js "u")) in
  (∀ k, outer !! k
        = match descriptionStyle !! k with
          | Some v => Some v
          | None =>
              if decide (k = "color") then Some (str "gray")
              else if decide (k = "fontSize") then Some (num 18%N)
              else if decide (k = "fontWeight") then Some (num 400%N)
              else if decide (k = "lineHeight") then Some (num 24%N)
              else None
          end) ∧
  ∃ st, elementStyle c = Some st ∧
    st !! "color" = Some (str "blue") ∧
    st !! "fontWeight" = Some (num 700%N) ∧
    st !! "fontSize" = Some (default (num 18%N) (descriptionStyle !! "fontSize")) ∧
    st !! "lineHeight"
    = Some (default (num 24%N) (descriptionStyle !! "lineHeight")) ∧
    ∀ k, k ≠ "color" → k ≠ "fontWeight" → st !! k = outer !! k.
Proof.
  intros str num descriptionStyle outer c.
  refine (Feature_link_style str num 3 (js "go go")
            [mkLink (js "go") (js "u")] (str "blue") descriptionStyle outer
            (imap (renderSegment num outer (str "blue"))
               [link_segment (js "go") (js "u"); text_segment (js " ");
                link_segment (js "go") (js "u")])
            c _ _ _).
  - unfold Feature_RichText, RichText.
    assert (parseTextWithLinks 3 (js "go go") [mkLink (js "go") (js "u")]
            = Some [link_segment (js "go") (js "u"); text_segment (js " ");
                    link_segment (js "go") (js "u")]) as ->
      by (vm_compute; reflexivity).
    reflexivity.
  - by left.
  - discriminate.
Defined.

Lemma log_chronological_witness :
  ∃ w, run ANIMATION_CONFIG 3 7 2000 (mount ANIMATION_CONFIG 3) = Some w ∧
       chronological (started w) ∧
       Forall (λ e, at_ e ≤ 2000)%N (started w).
Proof. refine (log_chronological ANIMATION_CONFIG 3 7 2000%N _). lia. Defined.

Lemma no_value_started_twice_witness :
  ∃ w, run ANIMATION_CONFIG 3 7 2000 (mount ANIMATION_CONFIG 3) = Some w ∧
       NoDup (value <$> started w).
Proof.
  refine (no_value_started_twice ANIMATION_CONFIG 3 7 2000%N _). lia.
Defined.

Lemma schedule_completes_witness :
  ∃ w, run ANIMATION_CONFIG 3 7 3060 (mount ANIMATION_CONFIG 3) = Some w ∧
    timers w = [] ∧ shouldAnimateFeatures w = true ∧
    length (started w) = 2 * 3 + 4 ∧
    mkStarted (blurTime ANIMATION_CONFIG 3) blurViewOpacity 750
      ∈ started w ∧
    ∀ i, i < 3 →
      mkStarted (featureTime ANIMATION_CONFIG i) (opacity i) 750
        ∈ started w ∧
      mkStarted (featureTime ANIMATION_CONFIG i) (translateY i) 750
        ∈ started w.
Proof.
  refine (schedule_completes ANIMATION_CONFIG 3 7 3060%N _ _).
  - vm_compute. discriminate.
  - lia.
Defined.

Lemma flag_flips_at_triggerTime_witness :
  ∃ w, run ANIMATION_CONFIG 3 7 1599 (mount ANIMATION_CONFIG 3) = Some w ∧
    shouldAnimateFeatures w = bool_decide (600 + 800 + 200 ≤ 1599)%N ∧
    ((1599 < 600 + 800 + 200)%N →
     ∀ e, e ∈ started w →
          value e = iconTitleOpacity ∨ value e = iconTitleScale ∨
          value e = iconTitleTranslateY).
Proof.
  refine (flag_flips_at_triggerTime ANIMATION_CONFIG 3 7 1599%N _). lia.
Defined.

Lemma phases_follow_one_another_witness :
  ∃ w, run ANIMATION_CONFIG 3 7 5000 (mount ANIMATION_CONFIG 3) = Some w ∧
    ∀ e1 e2, e1 ∈ started w → e2 ∈ started w →
      ((value e1 = iconTitleOpacity ∨ value e1 = iconTitleScale) →
       value e2 = iconTitleTranslateY →
       at_ e2 = at_ e1 + duration e1)%N ∧
      (value e1 = iconTitleTranslateY →
       (∃ i, value e2 = opacity i ∨ value e2 = translateY i) →
       at_ e1 + duration e1 + 200 ≤ at_ e2)%N ∧
      ((∃ i, value e1 = opacity i ∨ value e1 = translateY i) →
       value e2 = blurViewOpacity →
       at_ e1 + 420 + 200 ≤ at_ e2)%N.
Proof.
  refine (phases_follow_one_another ANIMATION_CONFIG 3 7 5000%N _ _).
  - vm_compute. discriminate.
  - lia.
Defined.

Lemma panel_and_last_feature_witness :
  ∃ w last panel,
    run ANIMATION_CONFIG 3 7 5000 (mount ANIMATION_CONFIG 3) = Some w ∧
    last ∈ started w ∧ panel ∈ started w ∧
    value last = opacity (3 - 1) ∧ value panel = blurViewOpacity ∧
    (at_ panel = at_ last + 420 + 200)%N ∧
    ((at_ panel < at_ last + duration last)%N ↔ (420 + 200 < 750)%N).
Proof.
  refine (panel_and_last_feature ANIMATION_CONFIG 3 7 5000%N _ _ _).
  - lia.
  - vm_compute. discriminate.
  - lia.
Defined.

Lemma unmount_after_flip_changes_nothing_witness :
  ∃ w1 w2 w,
    run ANIMATION_CONFIG 3 7 1700 (mount ANIMATION_CONFIG 3) = Some w1 ∧
    run ANIMATION_CONFIG 3 7 5000 (unmount w1) = Some w2 ∧
    run ANIMATION_CONFIG 3 7 5000 (mount ANIMATION_CONFIG 3) = Some w ∧
    mounted w2 = false ∧
    started w2 = started w ∧ timers w2 = timers w ∧
    ∀ i, i < 3 → (featureTime ANIMATION_CONFIG i ≤ 5000)%N →
      mkStarted (featureTime ANIMATION_CONFIG i) (opacity i) 750
        ∈ started w2 ∧
      mkStarted (featureTime ANIMATION_CONFIG i) (translateY i) 750
        ∈ started w2.
Proof.
  refine (unmount_after_flip_changes_nothing ANIMATION_CONFIG 3 7 1700%N
            5000%N _ _ _).
  - vm_compute. discriminate.
  - vm_compute. discriminate.
  - lia.
Defined.

Example unmounted_after_flip :
  (started <$>
     (run ANIMATION_CONFIG 3 7 1700 (mount ANIMATION_CONFIG 3)
        ≫= λ w1, run ANIMATION_CONFIG 3 7 5000 (unmount w1)))
  = Some [mkStarted 0 iconTitleOpacity 600; mkStarted 0 iconTitleScale 600;
          mkStarted 600 iconTitleTranslateY 800;
          mkStarted 1600 (opacity 0) 750; mkStarted 1600 (translateY 0) 750;
          mkStarted 2020 (opacity 1) 750; mkStarted 2020 (translateY 1) 750;
          mkStarted 2440 (opacity 2) 750; mkStarted 2440 (translateY 2) 750;
          mkStarted 3060 blurViewOpacity 750].
Proof. vm_compute. reflexivity. Qed.
